(** * A shallow embedding of the book library (library.go)

    The library keeps its catalogue in an SQLite file and the book files
    under a root directory.  The embedding keeps the tables as lists of
    rows in row-id order, runs every statement of library.go as a
    function on those tables, and threads the state of the outside world
    (the committed store, the open transaction, the disk, and a plan
    that says which of the coming store and file operations fail)
    through a small state monad. *)

From Stdlib Require Import ZArith String Ascii List Lia Permutation.
From Stdlib Require Import DecimalString DecimalZ.
From stdpp Require Import gmap strings list sorting.

Local Open Scope string_scope.
Local Open Scope Z_scope.

(** ** Go's strings and numbers *)

Module GoString.

(** [strings.Join]. *)
Fixpoint Join (elems : list string) (sep : string) : string :=
  match elems with
  | [] => ""
  | [s] => s
  | s :: rest => s +:+ sep +:+ Join rest sep
  end.

(** [strconv.FormatInt(i, 10)]: a minus sign for negative numbers, then
    the decimal digits without leading zeros. *)
Definition FormatInt (i : Z) : string := NilEmpty.string_of_int (Z.to_int i).

(** [strconv.Itoa]. *)
Definition Itoa (i : Z) : string := FormatInt i.

(** [strings.HasSuffix]. *)
Definition HasSuffix (s suffix : string) : bool :=
  (String.length suffix <=? String.length s)%nat &&
  String.eqb
    (substring (String.length s - String.length suffix) (String.length suffix) s)
    suffix.

(** [strings.TrimSuffix]. *)
Definition TrimSuffix (s suffix : string) : string :=
  if HasSuffix s suffix
  then substring 0 (String.length s - String.length suffix) s
  else s.

(** The loop of [path.Ext]: [n] is one more than the index [i] that the
    Go loop is about to inspect; the loop stops at the first slash. *)
Fixpoint Ext_loop (path : string) (n : nat) : string :=
  match n with
  | O => ""
  | S i =>
      match get i path with
      | Some c =>
          if Ascii.eqb c "/" then ""
          else if Ascii.eqb c "."
               then substring i (String.length path - i) path
               else Ext_loop path i
      | None => ""
      end
  end.

(** [path.Ext]: the suffix that starts at the last dot of the last
    element of the path, empty when that element has no dot. *)
Definition Ext (path : string) : string := Ext_loop path (String.length path).

(** Go's [int] and [int64] are 64-bit two's complement numbers. *)
Definition wrap64 (z : Z) : Z := (z + 2 ^ 63) mod 2 ^ 64 - 2 ^ 63.

Definition max_int64 : Z := 2 ^ 63 - 1.

End GoString.
Export GoString.

(** ** The disk *)

(** What is kept of a file: its bytes and its modification time. *)
Record FileData := mkFileData { contents : string; modTime : Z }.

(** [os.Stat] reports an error exactly for the names that are not on
    the disk. *)
Definition Stat_ok (disk : gmap string FileData) (name : string) : bool :=
  match disk !! name with
  | Some _ => true
  | None => false
  end.

(** The name that [GetUniqueName] builds in round [i] of its loop. *)
Definition numbered (f ext : string) (i : Z) : string :=
  TrimSuffix f ext +:+ " (" +:+ Itoa i +:+ ")" +:+ ext.

(** The loop of [GetUniqueName].  [newName] was just probed with
    [os.Stat]; while the probe succeeds the next name is built and the
    counter is incremented.  The Go loop has no bound, the recursion
    here is bounded by [fuel] and answers [None] when it runs out. *)
Fixpoint GetUniqueName_loop (disk : gmap string FileData) (f ext : string)
    (fuel : nat) (i : Z) (newName : string) : option string :=
  if Stat_ok disk newName then
    match fuel with
    | O => None
    | S fuel' =>
        GetUniqueName_loop disk f ext fuel' (wrap64 (i + 1)) (numbered f ext i)
    end
  else Some newName.

(** [GetUniqueName]: a disk with [n] names makes the loop probe at most
    [n + 1] of them. *)
Definition GetUniqueName (disk : gmap string FileData) (f : string)
    : option string :=
  GetUniqueName_loop disk f (Ext f) (S (size disk)) 1 f.


(** ** Errors *)

(** A Go [error] value is [None] for [nil] and [Some e] otherwise. *)
Inductive error : Type :=
| ErrDriver (what : string)
    (** reported by the SQLite driver or by the operating system *)
| ErrConstraint (what : string)
    (** a uniqueness constraint of the schema refused a row *)
| ErrNoRows
    (** [sql.ErrNoRows] *)
| ErrTxDone
    (** [sql.ErrTxDone]: the transaction was committed or rolled back *)
| New (msg : string)
    (** [errors.New] and [errors.Errorf] *)
| Wrapped (cause : error) (msg : string).
    (** [errors.Wrap] and [errors.Wrapf] of an error that is not [nil] *)

(** [errors.Wrap]: wrapping [nil] gives [nil]. *)
Definition Wrap (err : option error) (msg : string) : option error :=
  match err with
  | None => None
  | Some e => Some (Wrapped e msg)
  end.

(** ** Books and their files *)

(** Modelled from the spec: the declarations of the structs [BookFile]
    and [Book] are not in library.go; the fields are the ones that
    library.go reads and writes, with the types it scans them into.
    [FileId] is the field [Id] of [BookFile], and [FileMtime] counts
    time as a number. *)
Record BookFile := mkBookFile {
  FileId : Z;
  Extension : string;
  OriginalFilename : string;
  CurrentFilename : string;
  FileSize : Z;
  FileMtime : Z;
  Hash : string;
  RegexpName : string;
  Source : string;
  Tags : list string;
}.

Record Book := mkBook {
  Id : Z;
  Title : string;
  Series : string;
  Authors : list string;
  Files : list BookFile;
}.

Definition set_Id (id : Z) (b : Book) : Book :=
  mkBook id (Title b) (Series b) (Authors b) (Files b).

Definition set_Authors_Files (a : list string) (f : list BookFile) (b : Book)
    : Book :=
  mkBook (Id b) (Title b) (Series b) a f.

Definition set_FileId (id : Z) (bf : BookFile) : BookFile :=
  mkBookFile id (Extension bf) (OriginalFilename bf) (CurrentFilename bf)
    (FileSize bf) (FileMtime bf) (Hash bf) (RegexpName bf) (Source bf) (Tags bf).

(** ** The tables of [initialSchema]

    Every table is the list of its rows in row-id order, the order in
    which SQLite scans it.  The columns [created_on], [updated_on] and
    [template_override] are left out: library.go never writes or reads
    them. *)

Record BookRow := mkBookRow {
  book_id : Z;
  book_series : string;
  book_title : string;
}.

Record FileRow := mkFileRow {
  file_id : Z;
  file_book_id : Z;
  file_extension : string;
  file_original_filename : string;
  file_filename : string;
  file_size : Z;
  file_mtime : Z;
  file_hash : string;
  file_regexp_name : string;
  file_source : string;
}.

(** A row of [authors] or of [tags]. *)
Record NameRow := mkNameRow {
  name_id : Z;
  name : string;
}.

(** A row of [books_authors] (owner a book, member an author) or of
    [files_tags] (owner a file, member a tag). *)
Record LinkRow := mkLinkRow {
  link_id : Z;
  owner_id : Z;
  member_id : Z;
}.

(** A row of the full-text table [books_fts].  library.go never gives
    the column [filename] a value. *)
Record FtsRow := mkFtsRow {
  docid : Z;
  fts_author : string;
  fts_series : string;
  fts_title : string;
  fts_extension : string;
  fts_tags : string;
  fts_filename : option string;
  fts_source : string;
}.

Record DB := mkDB {
  books : list BookRow;
  files : list FileRow;
  authors : list NameRow;
  books_authors : list LinkRow;
  tags : list NameRow;
  files_tags : list LinkRow;
  books_fts : list FtsRow;
}.

Definition empty_DB : DB := mkDB [] [] [] [] [] [] [].

Definition set_books (v : list BookRow) (d : DB) : DB :=
  mkDB v (files d) (authors d) (books_authors d) (tags d) (files_tags d)
    (books_fts d).
Definition set_files (v : list FileRow) (d : DB) : DB :=
  mkDB (books d) v (authors d) (books_authors d) (tags d) (files_tags d)
    (books_fts d).
Definition set_authors (v : list NameRow) (d : DB) : DB :=
  mkDB (books d) (files d) v (books_authors d) (tags d) (files_tags d)
    (books_fts d).
Definition set_books_authors (v : list LinkRow) (d : DB) : DB :=
  mkDB (books d) (files d) (authors d) v (tags d) (files_tags d) (books_fts d).
Definition set_tags (v : list NameRow) (d : DB) : DB :=
  mkDB (books d) (files d) (authors d) (books_authors d) v (files_tags d)
    (books_fts d).
Definition set_files_tags (v : list LinkRow) (d : DB) : DB :=
  mkDB (books d) (files d) (authors d) (books_authors d) (tags d) v
    (books_fts d).
Definition set_books_fts (v : list FtsRow) (d : DB) : DB :=
  mkDB (books d) (files d) (authors d) (books_authors d) (tags d)
    (files_tags d) v.

(** ** The statements that library.go sends to the store

    A query is a function from the tables to the rows it returns, in
    the order SQLite returns them; a statement that writes is a function
    to the new tables and the row id it reports, or to the error of the
    constraint it violates.  The foreign keys of the schema are not
    checked: library.go never turns on SQLite's enforcement of them. *)

Module Sql.

(** The row id SQLite gives a new row of a table with an
    [integer primary key]: 1 in an empty table, otherwise one more than
    the largest in use.  (SQLite looks for an unused id once the largest
    is [2^63 - 1]; that is not modelled.) *)
Definition next_rowid (ids : list Z) : Z :=
  match ids with
  | [] => 1
  | id :: rest => 1 + foldr Z.max id rest
  end.

(** Insertion into a list sorted by [key], before the first row whose
    key is not smaller. *)
Fixpoint insert_by {A} (key : A → Z) (x : A) (l : list A) : list A :=
  match l with
  | [] => [x]
  | y :: l' => if key x <=? key y then x :: l else y :: insert_by key x l'
  end.

(** [ORDER BY key]. *)
Definition order_by {A} (key : A → Z) (l : list A) : list A :=
  foldr (insert_by key) [] l.

(** [LIMIT lim OFFSET off]: SQLite reads a negative limit as no limit
    and a negative offset as zero. *)
Definition limit_offset {A} (lim off : Z) (l : list A) : list A :=
  let l' := drop (Z.to_nat off) l in
  if lim <? 0 then l' else take (Z.to_nat lim) l'.

(** [select id from files where hash=?] *)
Definition select_file_ids_by_hash (h : string) (d : DB) : list Z :=
  file_id <$> filter (λ r, file_hash r = h) (files d).

(** [SELECT id FROM books WHERE title = ?] *)
Definition select_book_ids_by_title (t : string) (d : DB) : list Z :=
  book_id <$> filter (λ r, book_title r = t) (books d).

(** [insert into books (series, title) values(?, ?)] *)
Definition insert_book (series title : string) (d : DB) : error + DB * Z :=
  let id := next_rowid (book_id <$> books d) in
  inr (set_books (books d ++ [mkBookRow id series title])%list d, id).

(** [insert into files (book_id, extension, original_filename, filename,
    file_size, file_mtime, hash, regexp_name, source) values (...)];
    the column [hash] is [unique]. *)
Definition insert_file (book : Z) (bf : BookFile) (d : DB) : error + DB * Z :=
  if decide (Hash bf ∈ file_hash <$> files d)
  then inl (ErrConstraint "UNIQUE constraint failed: files.hash")
  else
    let id := next_rowid (file_id <$> files d) in
    inr (set_files
           (files d ++
            [mkFileRow id book (Extension bf) (OriginalFilename bf)
               (CurrentFilename bf) (FileSize bf) (FileMtime bf) (Hash bf)
               (RegexpName bf) (Source bf)])%list d, id).

(** [select id from authors where name=?], and the same for [tags]. *)
Definition select_id_by_name (n : string) (table : list NameRow) : list Z :=
  name_id <$> filter (λ r, name r = n) table.

(** [insert into authors (name) values(?)], and the same for [tags];
    the column [name] is [unique]. *)
Definition insert_name (what : string) (n : string) (table : list NameRow)
    : error + list NameRow * Z :=
  if decide (n ∈ name <$> table)
  then inl (ErrConstraint ("UNIQUE constraint failed: " +:+ what))
  else
    let id := next_rowid (name_id <$> table) in
    inr ((table ++ [mkNameRow id n])%list, id).

Definition insert_author (n : string) (d : DB) : error + DB * Z :=
  match insert_name "authors.name" n (authors d) with
  | inl e => inl e
  | inr (t, id) => inr (set_authors t d, id)
  end.

Definition insert_tag (n : string) (d : DB) : error + DB * Z :=
  match insert_name "tags.name" n (tags d) with
  | inl e => inl e
  | inr (t, id) => inr (set_tags t d, id)
  end.

(** [insert or ignore into books_authors (book_id, author_id)
    values(?, ?)], and the same for [files_tags]: the pair is [unique],
    and a pair that is already linked is left alone.  No row id is read
    from the result. *)
Definition insert_or_ignore_link (owner member : Z) (table : list LinkRow)
    : list LinkRow :=
  if decide (Exists (λ l, owner_id l = owner ∧ member_id l = member) table)
  then table
  else (table ++ [mkLinkRow (next_rowid (link_id <$> table)) owner member])%list.

Definition insert_or_ignore_books_authors (book author : Z) (d : DB)
    : error + DB * Z :=
  inr (set_books_authors
         (insert_or_ignore_link book author (books_authors d)) d, 0).

Definition insert_or_ignore_files_tags (file tag : Z) (d : DB)
    : error + DB * Z :=
  inr (set_files_tags (insert_or_ignore_link file tag (files_tags d)) d, 0).

(** [insert into books_fts (docid, author, series, title, extension,
    tags, source) values (...)]; [docid] is the row id of the table. *)
Definition insert_fts (id : Z) (author series title extension tags source : string)
    (d : DB) : error + DB * Z :=
  if decide (id ∈ docid <$> books_fts d)
  then inl (ErrConstraint "constraint failed")
  else
    inr (set_books_fts
           (insert_by docid
              (mkFtsRow id author series title extension tags None source)
              (books_fts d)) d, id).

(** [select docid, tags, extension, source from books_fts where docid=?] *)
Definition select_fts_by_docid (id : Z) (d : DB)
    : list (Z * string * string * string) :=
  (λ r, (docid r, fts_tags r, fts_extension r, fts_source r)) <$>
  filter (λ r, docid r = id) (books_fts d).

(** [update books_fts set tags=?, extension=?, source=? where docid=?] *)
Definition update_fts (tags extension source : string) (id : Z) (d : DB)
    : error + DB * Z :=
  inr (set_books_fts
         ((λ r, if decide (docid r = id)
                then mkFtsRow (docid r) (fts_author r) (fts_series r)
                       (fts_title r) extension tags (fts_filename r) source
                else r) <$> books_fts d) d, 0).

(** [select docid from books_fts where books_fts match ?]; [matches]
    is the verdict of the full-text engine on a row. *)
Definition select_docids_matching (matches : FtsRow → bool) (d : DB) : list Z :=
  docid <$> filter (λ r, matches r = true) (books_fts d).

(** The same with [LIMIT ? OFFSET ?]. *)
Definition select_docids_matching_paged (matches : FtsRow → bool)
    (lim off : Z) (d : DB) : list Z :=
  limit_offset lim off (select_docids_matching matches d).

(** [select id, series, title from books where id in (...)] *)
Definition select_books_by_ids (ids : list Z) (d : DB) : list BookRow :=
  filter (λ r, book_id r ∈ ids) (books d).

(** [links JOIN names ON links.member = names.id]. *)
Definition join_names (links : list LinkRow) (names : list NameRow)
    : list (LinkRow * NameRow) :=
  links ≫= λ l, (λ n, (l, n)) <$> filter (λ n, name_id n = member_id l) names.

(** [SELECT l.owner, n.name FROM links l JOIN names n ON l.member = n.id
    WHERE l.owner IN (...) ORDER BY l.id]. *)
Definition select_names_of_owners (ids : list Z) (links : list LinkRow)
    (names : list NameRow) : list (Z * string) :=
  (λ p, (owner_id p.1, name p.2)) <$>
  order_by (λ p, link_id p.1)
    (filter (λ p, owner_id p.1 ∈ ids) (join_names links names)).

(** [SELECT ba.book_id, a.name FROM books_authors ba JOIN authors a ON
    ba.author_id = a.id WHERE ba.book_id IN (...) ORDER BY ba.id] *)
Definition select_authors_of_books (ids : list Z) (d : DB) : list (Z * string) :=
  select_names_of_owners ids (books_authors d) (authors d).

(** [SELECT ft.file_id, t.name FROM files_tags ft JOIN tags t ON
    ft.tag_id = t.id WHERE ft.file_id IN (...) ORDER BY ft.id] *)
Definition select_tags_of_files (ids : list Z) (d : DB) : list (Z * string) :=
  select_names_of_owners ids (files_tags d) (tags d).

(** [select id, book_id from files where book_id in (...)] *)
Definition select_file_ids_of_books (ids : list Z) (d : DB) : list (Z * Z) :=
  (λ r, (file_id r, file_book_id r)) <$>
  filter (λ r, file_book_id r ∈ ids) (files d).

(** [select id, extension, original_filename, filename, file_size,
    file_mtime, hash, regexp_name, source from files where id in (...)] *)
Definition select_files_by_ids (ids : list Z) (d : DB) : list FileRow :=
  filter (λ r, file_id r ∈ ids) (files d).

End Sql.

(** ** The world outside the program *)

(** What the next operation on the store or on the disk does: it works,
    it fails, or (a query) it hands out [n] rows and then fails.  An
    operation without rows fails on [FailsAfter] as well. *)
Inductive outcome : Type :=
| Succeeds
| Fails
| FailsAfter (n : nat).

Definition failed (o : outcome) : bool :=
  match o with
  | Succeeds => false
  | _ => true
  end.

(** [store] is the committed content of the library file, [tx] the
    tables as the open transaction sees them ([None] when no transaction
    is open), [disk] the files by name, and [plan] the outcomes of the
    coming operations, in order; past its end every operation works. *)
Record World := mkWorld {
  store : DB;
  tx : option DB;
  disk : gmap string FileData;
  plan : list outcome;
}.

Definition set_store (d : DB) (w : World) : World :=
  mkWorld d (tx w) (disk w) (plan w).
Definition set_tx (t : option DB) (w : World) : World :=
  mkWorld (store w) t (disk w) (plan w).
Definition set_disk (f : gmap string FileData) (w : World) : World :=
  mkWorld (store w) (tx w) f (plan w).
Definition set_plan (p : list outcome) (w : World) : World :=
  mkWorld (store w) (tx w) (disk w) p.

(** Computations that read and change the world. *)
Definition M (A : Type) : Type := World → A * World.

#[global] Instance M_ret : MRet M := λ A x w, (x, w).
#[global] Instance M_bind : MBind M :=
  λ A B f m w, let '(x, w') := m w in f x w'.

(** A step given by what it does to the world. *)
Definition act {A} (f : World → A * World) : M A := f.

(** The outcome of the next operation. *)
Definition consult : M outcome :=
  λ w, match plan w with
       | [] => (Succeeds, w)
       | o :: p => (o, set_plan p w)
       end.

(** *** database/sql *)

(** [*sql.Rows] after a query that was accepted: the rows that calls of
    [rows.Next] hand out, and what [rows.Err] reports once [rows.Next]
    has answered false.  [rows.Scan] does not fail: library.go scans
    every column into a variable of the type it was written from. *)
Record Rows (R : Type) := mkRows {
  delivered : list R;
  rows_Err : option error;
}.
Arguments mkRows {R}.
Arguments delivered {R}.
Arguments rows_Err {R}.

Definition rows_of {R} (o : outcome) (result : list R) : error + Rows R :=
  match o with
  | Succeeds => inr (mkRows result None)
  | Fails => inl (ErrDriver "query")
  | FailsAfter n => inr (mkRows (take n result) (Some (ErrDriver "rows")))
  end.

(** [lib.Begin]: the transaction starts from the committed tables. *)
Definition Begin : M (option error) :=
  o ← consult;
  if failed o then mret (Some (ErrDriver "begin"))
  else act (λ w, (None, set_tx (Some (store w)) w)).

(** [tx.Rollback]: library.go never looks at its result. *)
Definition Rollback : M unit :=
  λ w, (tt, set_tx None w).

(** [tx.Commit]. *)
Definition Commit : M (option error) :=
  λ w, match tx w with
       | None => (Some ErrTxDone, w)
       | Some d =>
           let '(o, w') := consult w in
           if failed o then (Some (ErrDriver "commit"), set_tx None w')
           else (None, set_tx None (set_store d w'))
       end.

(** [tx.Query]. *)
Definition tx_Query {R} (q : DB → list R) : M (error + Rows R) :=
  λ w, match tx w with
       | None => (inl ErrTxDone, w)
       | Some d => let '(o, w') := consult w in (rows_of o (q d), w')
       end.

(** [lib.Query], outside of any transaction. *)
Definition lib_Query {R} (q : DB → list R) : M (error + Rows R) :=
  λ w, let '(o, w') := consult w in (rows_of o (q (store w)), w').

(** [tx.QueryRow(...).Scan(...)]: the first row, [sql.ErrNoRows] when
    there is none. *)
Definition tx_QueryRow_Scan {R} (q : DB → list R) : M (error + R) :=
  r ← tx_Query q;
  match r with
  | inl err => mret (inl err)
  | inr rows =>
      match delivered rows with
      | x :: _ => mret (inr x)
      | [] =>
          match rows_Err rows with
          | Some err => mret (inl err)
          | None => mret (inl ErrNoRows)
          end
      end
  end.

(** [tx.Exec] followed by [res.LastInsertId], which the SQLite driver
    never fails. *)
Definition tx_Exec (stmt : DB → error + DB * Z) : M (error + Z) :=
  λ w, match tx w with
       | None => (inl ErrTxDone, w)
       | Some d =>
           let '(o, w') := consult w in
           if failed o then (inl (ErrDriver "exec"), w')
           else match stmt d with
                | inl e => (inl e, w')
                | inr (d', id) => (inr id, set_tx (Some d') w')
                end
       end.

(** *** os and io *)

(** An operation of the operating system that can only work or fail. *)
Definition os_call (what : string) : M (option error) :=
  o ← consult;
  mret (if failed o then Some (ErrDriver what) else None).

(** [os.MkdirAll]; directories are not kept on the [disk]. *)
Definition MkdirAll (dir : string) : M (option error) := os_call "mkdir".

(** [os.Rename]. *)
Definition Rename (src dst : string) : M (option error) :=
  o ← consult;
  act (λ w, if failed o then (Some (ErrDriver "rename"), w)
       else match disk w !! src with
            | None => (Some (ErrDriver "rename: no such file"), w)
            | Some data =>
                (None, set_disk (<[dst := data]> (delete src (disk w))) w)
            end).

(** [os.Open] followed by the checks of the handle. *)
Definition Open (src : string) : M (error + FileData) :=
  o ← consult;
  act (λ w, if failed o then (inl (ErrDriver "open"), w)
       else match disk w !! src with
            | None => (inl (ErrDriver "open: no such file"), w)
            | Some data => (inr data, w)
            end).

(** [os.Create]: an empty file under the name. *)
Definition Create (dst : string) : M (option error) :=
  o ← consult;
  act (λ w, if failed o then (Some (ErrDriver "create"), w)
       else (None, set_disk (<[dst := mkFileData "" 0]> (disk w)) w)).

(** [io.Copy] into the file [dst]. *)
Definition Copy (dst : string) (data : FileData) : M (option error) :=
  o ← consult;
  act (λ w, if failed o then (Some (ErrDriver "copy"), w)
       else (None,
             set_disk (alter (λ f, mkFileData (contents data) (modTime f)) dst
                         (disk w)) w)).

(** [os.Chtimes]; only the modification time is kept. *)
Definition Chtimes (dst : string) (mtime : Z) : M (option error) :=
  o ← consult;
  act (λ w, if failed o then (Some (ErrDriver "chtimes"), w)
       else (None,
             set_disk (alter (λ f, mkFileData (contents f) mtime) dst (disk w))
               w)).

(** [os.Remove]. *)
Definition Remove (src : string) : M (option error) :=
  o ← consult;
  act (λ w, if failed o then (Some (ErrDriver "remove"), w)
       else (None, set_disk (delete src (disk w)) w)).

(** ** The functions of library.go *)

(** The fields of [Library] next to the handle of the store. *)
Record Library := mkLibrary {
  filename : string;
  booksRoot : string;
}.

(** A [for ... range] loop over a slice whose body can return an error:
    the element at which it returned, with the error. *)
Fixpoint for_range {A} (body : A → M (option error)) (l : list A)
    : M (option (A * error)) :=
  match l with
  | [] => mret None
  | x :: rest =>
      err ← body x;
      match err with
      | Some e => mret (Some (x, e))
      | None => for_range body rest
      end
  end.

(** [m[k] = append(m[k], v)] on a Go map of slices. *)
Definition map_append {V} (m : gmap Z (list V)) (k : Z) (v : V)
    : gmap Z (list V) :=
  <[k := (default [] (m !! k) ++ [v])%list]> m.

(** [len] of a slice. *)
Definition len {A} (l : list A) : Z := Z.of_nat (length l).

(** joinInt64s is like strings.Join, but for slices of int64. *)
Definition joinInt64s (items : list Z) (sep : string) : string :=
  Join ((λ item, FormatInt item) <$> items) sep.

(** What the program takes from its surroundings. *)
Class Runtime := {
  (** [fts_match terms row]: whether SQLite's full-text engine finds
      that the row matches the terms. *)
  fts_match : string → FtsRow → bool;
  (** [path.Join] of two elements and [path.Dir]. *)
  path_Join : string → string → string;
  path_Dir : string → string;
  (** The order in which a [for ... range] loop visits a Go map: some
      order of its entries, not fixed by the language. *)
  range_order : ∀ V : Type, gmap Z V → list (Z * V);
  range_order_perm : ∀ V (m : gmap Z V), range_order V m ≡ₚ map_to_list m;
}.

Section Library.

Context {rt : Runtime}.

(** insertAuthor inserts an author into the database. *)
Definition insertAuthor (author : string) (book : Book) : M (option error) :=
  r ← tx_QueryRow_Scan (λ d, Sql.select_id_by_name author (authors d));
  r ← match r with
      | inl ErrNoRows => tx_Exec (Sql.insert_author author)
      | inl err => mret (inl err)
      | inr authorId => mret (inr authorId)
      end;
  match r with
  | inl err => mret (Some err)
  | inr authorId =>
      res ← tx_Exec (Sql.insert_or_ignore_books_authors (Id book) authorId);
      match res with
      | inl err => mret (Some err)
      | inr _ => mret None
      end
  end.

(** insertTag inserts a tag into the database. *)
Definition insertTag (tag : string) (bf : BookFile) : M (option error) :=
  r ← tx_QueryRow_Scan (λ d, Sql.select_id_by_name tag (tags d));
  r ← match r with
      | inl ErrNoRows => tx_Exec (Sql.insert_tag tag)
      | inl err => mret (inl err)
      | inr tagId => mret (inr tagId)
      end;
  match r with
  | inl err => mret (Some err)
  | inr tagId =>
      res ← tx_Exec (Sql.insert_or_ignore_files_tags (FileId bf) tagId);
      match res with
      | inl err => mret (Some err)
      | inr _ => mret None
      end
  end.

(** indexBookInSearch: the search document of the book. *)
Definition indexBookInSearch (book : Book) (createNew : bool)
    : M (option error) :=
  match Files book with
  | [bf] =>
      let joinedTags := Join (Tags bf) " " in
      if createNew then
        res ← tx_Exec
                (Sql.insert_fts (Id book) (Join (Authors book) " & ")
                   (Series book) (Title book) (Extension bf) joinedTags
                   (Source bf));
        match res with
        | inl err => mret (Some err)
        | inr _ => mret None
        end
      else
        r ← tx_Query (Sql.select_fts_by_docid (Id book));
        match r with
        | inl err => mret (Some err)
        | inr rows =>
            (* the query worked: [err] is nil from here on *)
            let err : option error := None in
            match delivered rows with
            | [] =>
                match rows_Err rows with
                | Some _ => mret err
                | None =>
                    mret (Some (New ("Existing book " +:+ FormatInt (Id book)
                                     +:+ " not found in FTS")))
                end
            | (id, tags, extension, source) :: _ =>
                res ← tx_Exec
                        (Sql.update_fts (tags +:+ " " +:+ joinedTags)
                           (extension +:+ " " +:+ Extension bf)
                           (source +:+ " " +:+ Source bf) id);
                match res with
                | inl err => mret (Some err)
                | inr _ => mret None
                end
            end
        end
  | _ => mret (Some (New "Book to index must contain only one file"))
  end.

(** copyFile copies a file from src to dst, setting dst's modified time
    to that of src.  The two deferred calls run last: the closing of
    [dst], which replaces the result when it fails, with the change of
    times, and then the closing of [src]. *)
Definition copyFile (src dst : string) : M (option error) :=
  r ← Open src;
  match r with
  | inl err => mret (Wrap (Some err) "Copy file")
  | inr st =>
      err ← os_call "stat";
      match err with
      | Some _ =>
          _ ← os_call "close";
          mret (Wrap err "Copy file")
      | None =>
          err ← Create dst;
          match err with
          | Some _ =>
              _ ← os_call "close";
              mret (Wrap err "Copy file")
          | None =>
              err ← Copy dst st;
              let e := Wrap err "Copy file" in
              cerr ← os_call "close";
              let e := match cerr with
                       | Some _ => Wrap cerr "Copy file"
                       | None => e
                       end in
              _ ← Chtimes dst (modTime st);
              _ ← os_call "close";
              mret e
          end
      end
  end.

(** moveFile moves a file from src to dst: a rename, and if that fails
    a copy and a delete whose failure is only logged. *)
Definition moveFile (src dst : string) : M (option error) :=
  err ← Rename src dst;
  match err with
  | Some _ =>
      err ← copyFile src dst;
      match err with
      | Some _ => mret err
      | None =>
          _ ← Remove src;
          mret None
      end
  | None => mret None
  end.

(** moveOrCopyFile moves or copies a file from book.OriginalFilename to
    book.CurrentFilename, relative to the configured books root. *)
Definition moveOrCopyFile (lib : Library) (book : Book) (move : bool)
    : M (option error) :=
  match Files book with
  | [bf] =>
      let newName := CurrentFilename bf in
      let newPath := path_Join (booksRoot lib) newName in
      err ← MkdirAll (path_Dir newPath);
      match err with
      | Some _ => mret err
      | None =>
          if move then moveFile (OriginalFilename bf) newPath
          else copyFile (OriginalFilename bf) newPath
      end
  | _ => mret (Some (New "Book to move or copy must contain only one file"))
  end.

(** getAuthorsByBookIds gets author names for each book ID.  The loop
    over the rows does not look at [rows.Err]. *)
Definition getAuthorsByBookIds (ids : list Z)
    : M (gmap Z (list string) * option error) :=
  if len ids =? 0 then mret (∅, None)
  else
    r ← tx_Query (Sql.select_authors_of_books ids);
    match r with
    | inl err => mret (∅, Some err)
    | inr rows =>
        mret (foldl (λ m '(bookId, authorName), map_append m bookId authorName)
                ∅ (delivered rows), None)
    end.

(** getTagsByFileIds gets tag names for each file ID. *)
Definition getTagsByFileIds (ids : list Z)
    : M (gmap Z (list string) * option error) :=
  if len ids =? 0 then mret (∅, None)
  else
    r ← tx_Query (Sql.select_tags_of_files ids);
    match r with
    | inl err => mret (∅, Some err)
    | inr rows =>
        mret (foldl (λ m '(fileId, tag), map_append m fileId tag)
                ∅ (delivered rows), None)
    end.

(** The file that [rows.Scan] fills from a row of [files], with the
    tags of [tagMap]. *)
Definition scan_file (tagMap : gmap Z (list string)) (r : FileRow) : BookFile :=
  mkBookFile (file_id r) (file_extension r) (file_original_filename r)
    (file_filename r) (file_size r) (file_mtime r) (file_hash r)
    (file_regexp_name r) (file_source r) (default [] (tagMap !! file_id r)).

(** getFilesById gets files for each ID. *)
Definition getFilesById (ids : list Z) : M (list BookFile * option error) :=
  if len ids =? 0 then mret ([], None)
  else
    '(tagMap, err) ← getTagsByFileIds ids;
    match err with
    | Some _ => mret ([], err)
    | None =>
        r ← tx_Query (Sql.select_files_by_ids ids);
        match r with
        | inl err => mret ([], Some err)
        | inr rows => mret (scan_file tagMap <$> delivered rows, None)
        end
    end.

(** GetFilesById gets files for each ID, in a transaction of its own;
    the results of [tx.Rollback] and [tx.Commit] are not looked at. *)
Definition GetFilesById (ids : list Z) : M (list BookFile * option error) :=
  if len ids =? 0 then mret ([], None)
  else
    err ← Begin;
    match err with
    | Some _ => mret ([], err)
    | None =>
        '(files, err) ← getFilesById ids;
        match err with
        | Some _ =>
            _ ← Rollback;
            mret (files, err)
        | None =>
            _ ← Commit;
            mret (files, err)
        end
    end.

(** The second loop of getFilesByBookIds, over the entries of
    [fileIdMap] in the order the loop visits them. *)
Fixpoint getFilesByBookIds_loop (entries : list (Z * list Z))
    (fileMap : gmap Z (list BookFile))
    : M (gmap Z (list BookFile) * option error) :=
  match entries with
  | [] => mret (fileMap, None)
  | (bookId, fileIds) :: rest =>
      '(files, err) ← getFilesById fileIds;
      match err with
      | Some _ => mret (∅, err)
      | None => getFilesByBookIds_loop rest (<[bookId := files]> fileMap)
      end
  end.

(** getFilesByBookIds gets files for each book ID. *)
Definition getFilesByBookIds (ids : list Z)
    : M (gmap Z (list BookFile) * option error) :=
  if len ids =? 0 then mret (∅, None)
  else
    r ← tx_Query (Sql.select_file_ids_of_books ids);
    match r with
    | inl err => mret (∅, Some err)
    | inr rows =>
        let fileIdMap :=
          foldl (λ m '(fileId, bookId), map_append m bookId fileId)
            ∅ (delivered rows) in
        getFilesByBookIds_loop (range_order _ fileIdMap) ∅
    end.

(** The book that [rows.Scan] fills from a row of [books]. *)
Definition scan_book (r : BookRow) : Book :=
  mkBook (book_id r) (book_title r) (book_series r) [] [].

(** GetBooksById retrieves books from the library by their id. *)
Definition GetBooksById (ids : list Z) : M (list Book * option error) :=
  if len ids =? 0 then mret ([], None)
  else
    err ← Begin;
    match err with
    | Some _ => mret ([], Wrap err "get books by ID")
    | None =>
        r ← tx_Query (Sql.select_books_by_ids ids);
        match r with
        | inl err =>
            mret ([], Wrap (Some err) "fetching books from database by ID")
        | inr rows =>
            (* the query worked: [err] is nil here *)
            let err : option error := None in
            let results := scan_book <$> delivered rows in
            match rows_Err rows with
            | Some _ =>
                _ ← Rollback;
                mret ([], Wrap err "querying books by ID")
            | None =>
                '(authorMap, err) ← getAuthorsByBookIds ids;
                match err with
                | Some _ =>
                    _ ← Rollback;
                    mret ([], Wrap err "get authors for books")
                | None =>
                    '(fileMap, err) ← getFilesByBookIds ids;
                    match err with
                    | Some _ =>
                        _ ← Rollback;
                        mret ([], Wrap err "get files for books")
                    | None =>
                        let results :=
                          (λ book,
                             set_Authors_Files
                               (default [] (authorMap !! Id book))
                               (default [] (fileMap !! Id book)) book)
                          <$> results in
                        err ← Commit;
                        match err with
                        | Some _ => mret ([], Wrap err "get books by ID")
                        | None => mret (results, None)
                        end
                    end
                end
            end
        end
    end.

(** SearchPaged implements book searching, both paged and non paged.
    Set limit to 0 to return all results. *)
Definition SearchPaged (terms : string) (offset limit moreResultsLimit : Z)
    : M (list Book * Z * option error) :=
  r ← (if limit =? 0
       then lib_Query (Sql.select_docids_matching (fts_match terms))
       else lib_Query
              (Sql.select_docids_matching_paged (fts_match terms)
                 (wrap64 (limit + moreResultsLimit)) offset));
  match r with
  | inl err => mret ([], 0, Wrap (Some err) "Querying db for search terms")
  | inr rows =>
      let ids := delivered rows in
      match rows_Err rows with
      | Some _ =>
          mret ([], 0, Wrap (rows_Err rows) "Retrieving search results from db")
      | None =>
          let '(moreResults, ids) :=
            if (0 <? limit) && (limit <? len ids)
            then (len ids - limit, take (Z.to_nat limit) ids)
            else (0, ids) in
          '(books, err) ← GetBooksById ids;
          mret (books, moreResults, err)
      end
  end.

(** Search searches the library for books. *)
Definition Search (terms : string) : M (list Book * option error) :=
  '(books, _, err) ← SearchPaged terms 0 0 0;
  mret (books, err).

(** The closure [authorsEqual] of getBookIdByTitleAndAuthors. *)
Definition authorsEqual (a b : list string) : bool :=
  if negb (len a =? len b) then false
  else
    forallb (λ i, String.eqb (nth i a "") (nth i b "")) (seq 0 (length a)).

Definition getBookIdByTitleAndAuthors (title : string) (authors : list string)
    : M (Z * bool * option error) :=
  r ← tx_Query (Sql.select_book_ids_by_title title);
  match r with
  | inl err => mret (0, false, Wrap (Some err) "get book by title")
  | inr rows =>
      let ids := delivered rows in
      '(authorMap, err) ← getAuthorsByBookIds ids;
      match err with
      | Some _ => mret (0, false, Wrap err "get authors for books")
      | None =>
          match
            List.find (λ '(bookId, authorNames), authorsEqual authors authorNames)
              (range_order _ authorMap)
          with
          | Some (bookId, _) => mret (bookId, true, None)
          | None => mret (0, false, None)
          end
      end
  end.

(** The steps of ImportBook before the file is placed (lines 134 to
    214): [inl err] where ImportBook returns [err] from one of them,
    [inr book] where it goes on to place the file of [book]. *)
Definition ImportBook_store (book : Book) : M (option error + Book) :=
  match Files book with
  | [bf] =>
      err ← Begin;
      match err with
      | Some _ => mret (inl err)
      | None =>
      r ← tx_Query (Sql.select_file_ids_by_hash (Hash bf));
      match r with
      | inl err =>
          _ ← Rollback;
          mret (inl (Some err))
      | inr rows =>
      (* the query worked: [err] is nil until it is assigned again *)
      let err : option error := None in
      match delivered rows with
      | id :: _ =>
          (* This book's hash is already in the library. *)
          _ ← Rollback;
          mret (inl (Some (New ("A duplicate book already exists with id "
                                +:+ FormatInt id))))
      | [] =>
      match rows_Err rows with
      | Some _ =>
          _ ← Rollback;
          mret (inl (Wrap err
                       ("Searching for duplicate book by hash " +:+ Hash bf)))
      | None =>
      '(existingBookId, found, err) ←
        getBookIdByTitleAndAuthors (Title book) (Authors book);
      match err with
      | Some _ =>
          _ ← Rollback;
          mret (inl (Wrap err "find existing book"))
      | None =>
      r ← (if negb found then
             res ← tx_Exec (Sql.insert_book (Series book) (Title book));
             match res with
             | inl err =>
                 _ ← Rollback;
                 mret (inl (Wrap (Some err) "Insert new book"))
             | inr id =>
                 let book := set_Id id book in
                 r ← for_range (λ author, insertAuthor author book)
                       (Authors book);
                 match r with
                 | Some (author, err) =>
                     _ ← Rollback;
                     mret (inl (Wrap (Some err)
                                  ("inserting author " +:+ author)))
                 | None => mret (inr book)
                 end
             end
           else mret (inr (set_Id existingBookId book)));
      match r with
      | inl err => mret (inl err)
      | inr book =>
      res ← tx_Exec (Sql.insert_file (Id book) bf);
      match res with
      | inl err =>
          _ ← Rollback;
          mret (inl (Wrap (Some err) "Inserting book file into the db"))
      | inr id =>
      let bf := set_FileId id bf in
      r ← for_range (λ tag, insertTag tag bf) (Tags bf);
      match r with
      | Some (tag, err) =>
          _ ← Rollback;
          mret (inl (Wrap (Some err) ("inserting tag " +:+ tag)))
      | None =>
      err ← indexBookInSearch book (negb found);
      match err with
      | Some _ =>
          _ ← Rollback;
          mret (inl (Wrap err "index book in search"))
      | None => mret (inr book)
      end end end end end end end end end
  | _ => mret (inl (Some (New "Book to import must contain only one file")))
  end.

(** ImportBook adds a book to a library.  The file referred to by
    book.OriginalFilename will either be copied or moved to the location
    referred to by book.CurrentFilename, relative to the configured
    books root.  The book will not be imported if another book already
    in the library has the same hash.  The result of [tx.Commit] is not
    looked at. *)
Definition ImportBook (lib : Library) (book : Book) (move : bool)
    : M (option error) :=
  r ← ImportBook_store book;
  match r with
  | inl err => mret err
  | inr book =>
      err ← moveOrCopyFile lib book move;
      match err with
      | Some _ =>
          _ ← Rollback;
          mret (Wrap err "Moving or copying book")
      | None =>
          _ ← Commit;
          mret None
      end
  end.

End Library.


(** ** The search document, in the words of the specification *)

(** The document of a new entry: the author names joined by [" & "],
    and the extension, the tags and the source of its one file. *)
Definition new_document (book : Book) (bf : BookFile) : FtsRow :=
  mkFtsRow (Id book) (Join (Authors book) " & ") (Series book) (Title book)
    (Extension bf) (Join (Tags bf) " ") None (Source bf).

(** The document of an entry after one more file: the tags, the
    extension and the source of the file are appended to the texts that
    are there, after a space. *)
Definition merged_document (bf : BookFile) (r : FtsRow) : FtsRow :=
  mkFtsRow (docid r) (fts_author r) (fts_series r) (fts_title r)
    (fts_extension r +:+ " " +:+ Extension bf)
    (fts_tags r +:+ " " +:+ Join (Tags bf) " ")
    (fts_filename r)
    (fts_source r +:+ " " +:+ Source bf).

(** ** The order of authors and tags, in the words of the specification *)

(** [result] lists the names linked to [owner], in the order of the
    ids of the rows that link them. *)
Definition linked_in_order (links : list LinkRow) (names : list NameRow)
    (owner : Z) (result : list string) : Prop :=
  ∃ rows : list (LinkRow * NameRow),
    result = (λ p, name p.2) <$> rows ∧
    StronglySorted (λ p q, link_id p.1 ≤ link_id q.1) rows ∧
    rows ≡ₚ filter (λ p, owner_id p.1 = owner) (Sql.join_names links names).

(** The author sequence recorded for the entry [b]: the names joined to
    the rows of [books_authors], in the order of the ids of these rows,
    those of [b]. *)
Definition recorded_authors (d : DB) (b : Z) : list string :=
  (λ p, name p.2) <$>
  filter (λ p, owner_id p.1 = b)
    (Sql.order_by (λ p, link_id p.1)
       (Sql.join_names (books_authors d) (authors d))).

(** ** What the schema keeps true of the tables that a search reads *)


(** ** Consistent tables *)

(** What the schema and the program together keep true of the tables.
    Row ids, hashes, names, linked pairs and document ids are not
    repeated; the rows of the link tables are in the order of their ids;
    a file belongs to a book, a link joins rows that exist, a document
    belongs to a book; and every book has its document, but for the
    books of [pending], which a transaction has inserted and not yet
    indexed. *)
Record consistent (pending : list Z) (d : DB) : Prop := mkConsistent {
  book_ids_unique : NoDup (book_id <$> books d);
  file_ids_unique : NoDup (file_id <$> files d);
  hashes_unique : NoDup (file_hash <$> files d);
  author_ids_unique : NoDup (name_id <$> authors d);
  author_names_unique : NoDup (name <$> authors d);
  tag_ids_unique : NoDup (name_id <$> tags d);
  tag_names_unique : NoDup (name <$> tags d);
  books_authors_sorted :
    StronglySorted (λ a b, link_id a < link_id b) (books_authors d);
  books_authors_unique :
    NoDup ((λ l, (owner_id l, member_id l)) <$> books_authors d);
  files_tags_sorted :
    StronglySorted (λ a b, link_id a < link_id b) (files_tags d);
  files_tags_unique :
    NoDup ((λ l, (owner_id l, member_id l)) <$> files_tags d);
  docids_unique : NoDup (docid <$> books_fts d);
  files_have_books :
    ∀ f, f ∈ files d → file_book_id f ∈ book_id <$> books d;
  books_authors_linked :
    ∀ l, l ∈ books_authors d →
         owner_id l ∈ book_id <$> books d ∧ member_id l ∈ name_id <$> authors d;
  files_tags_linked :
    ∀ l, l ∈ files_tags d →
         owner_id l ∈ file_id <$> files d ∧ member_id l ∈ name_id <$> tags d;
  documents_have_books :
    ∀ id, id ∈ docid <$> books_fts d → id ∈ book_id <$> books d;
  books_have_documents :
    ∀ id, id ∈ book_id <$> books d → id ∈ docid <$> books_fts d ∨ id ∈ pending;
}.

(** The tables that the open transaction sees, if one is open, satisfy
    [P]. *)
Definition in_tx (P : DB → Prop) (w : World) : Prop :=
  ∀ d, tx w = Some d → P d.

(** ** Words for the runs of a computation *)

(** The world after the next operation has taken its outcome from the
    plan. *)
Definition tick (w : World) : World := set_plan (tail (plan w)) w.

(** The next [n] operations work. *)
Definition works (n : nat) (w : World) : Prop :=
  Forall (λ o, o = Succeeds) (take n (plan w)).

(** No operation of the plan fails. *)
Definition calm (w : World) : Prop := Forall (λ o, o = Succeeds) (plan w).

(** A transaction on the tables [d] is open and no operation of the
    plan fails. *)
Definition quiet (d : DB) (w : World) : Prop := calm w ∧ tx w = Some d.

(** A computation that leaves a part of the world as it is. *)
Definition keeps {A X} (part : World → X) (m : M A) : Prop :=
  ∀ w, part (m w).2 = part w.

(** What a transaction cannot touch before it is committed: the
    committed tables and the disk. *)
Definition outside (w : World) : DB * gmap string FileData :=
  (store w, disk w).

(** What a query cannot touch: everything but the plan. *)
Definition inner (w : World) : DB * option DB * gmap string FileData :=
  (store w, tx w, disk w).

(** The tags of every file of [fs] are in the order of their links. *)
Definition tags_in_order (d : DB) (fs : list BookFile) : Prop :=
  ∀ bf, bf ∈ fs →
        linked_in_order (files_tags d) (tags d) (FileId bf) (Tags bf).

(** The world after a series of calls of ImportBook, each with its book
    and its [move]. *)
Definition imports `{Runtime} (lib : Library) (l : list (Book * bool))
    (w : World) : World :=
  foldl (λ w '(b, move), (ImportBook lib b move w).2) w l.

(** ** Sample data *)

Module Sample.

(** A runtime whose full-text engine matches a row when the terms are
    its title, whose paths are joined with a slash, and whose maps are
    visited in the order of [map_to_list]. *)
Definition runtime : Runtime := {|
  fts_match := λ terms r, String.eqb terms (fts_title r);
  path_Join := λ a b, a +:+ "/" +:+ b;
  path_Dir := λ p, p;
  range_order := λ V, map_to_list;
  range_order_perm := λ V m, reflexivity _;
|}.

Definition lib : Library := mkLibrary "library.db" "books".

Definition data : FileData := mkFileData "bytes" 7.

(** A book with one file [in/<hash>.epub]. *)
Definition book (title : string) (authors : list string) (hash : string)
    (tags : list string) : Book :=
  mkBook 0 title "" authors
    [mkBookFile 0 "epub" ("in/" +:+ hash +:+ ".epub") (hash +:+ ".epub") 5 7
       hash "regexp" "src" tags].

(** An empty library next to five files that wait to be imported. *)
Definition fresh : World :=
  mkWorld empty_DB None
    (list_to_map
       ((λ h, ("in/" +:+ h +:+ ".epub", data)) <$> ["a"; "b"; "c"; "d"; "e"]))
    [].

(** The world after the books are imported, one after the other. *)
Definition import_all (l : list Book) (w : World) : World :=
  foldl (λ w b, (ImportBook (rt := runtime) lib b false w).2) w l.

(** Five books with the title "T", and one with the title "U". *)
Definition six : World :=
  import_all
    [book "T" ["A1"] "a" ["x"]; book "T" ["A2"] "b" ["x"];
     book "U" ["A1"] "f" ["x"];
     book "T" ["A3"] "c" ["y"]; book "T" ["A4"] "d" ["y"];
     book "T" ["A5"] "e" ["z"]]
    (set_disk (<["in/f.epub" := data]> (disk fresh)) fresh).

(** A book whose authors and tags are not in alphabetical order. *)
Definition zed_amy : World :=
  import_all [book "T" ["Zed"; "Amy"] "a" ["z"; "a"]] fresh.

End Sample.

(** * Properties *)

(** ** Strings and unique names *)

Lemma string_app_cons c s t : String c s +:+ t = String c (s +:+ t).
Proof. done. Qed.

Lemma string_length_app s t :
  String.length (s +:+ t) = (String.length s + String.length t)%nat.
Proof. induction s as [|c s IH]; simpl; [done|by rewrite IH]. Qed.

Lemma string_app_inj_r a b s : a +:+ s = b +:+ s → a = b.
Proof.
  revert b. induction a as [|c a IH]; intros [|c' b] H; simpl in *.
  - done.
  - apply (f_equal String.length) in H.
    rewrite !string_length_app in H. simpl in H. lia.
  - apply (f_equal String.length) in H.
    rewrite !string_length_app in H. simpl in H. lia.
  - injection H as -> H. f_equal. by apply IH.
Qed.

Lemma Itoa_inj i j : Itoa i = Itoa j → i = j.
Proof.
  unfold Itoa, FormatInt. intros H. apply DecimalZ.to_int_inj.
  apply (f_equal NilEmpty.int_of_string) in H.
  rewrite !NilEmpty.isi in H. congruence.
Qed.

Lemma numbered_inj f ext i j : numbered f ext i = numbered f ext j → i = j.
Proof.
  unfold numbered. intros H.
  apply String.app_inj in H. apply String.app_inj in H.
  apply string_app_inj_r in H. by apply Itoa_inj.
Qed.

Lemma substring_0_length s : substring 0 (String.length s) s = s.
Proof. induction s as [|c s IH]; simpl; [done|by rewrite IH]. Qed.

Lemma substring_split s i :
  (i ≤ String.length s)%nat →
  substring 0 i s +:+ substring i (String.length s - i) s = s.
Proof.
  revert i. induction s as [|c s IH]; intros [|i] Hi; simpl in *; try lia.
  - done.
  - by rewrite substring_0_length.
  - rewrite string_app_cons. f_equal. apply IH. lia.
Qed.

Lemma substring_tail_length s i :
  (i ≤ String.length s)%nat →
  String.length (substring i (String.length s - i) s)
  = (String.length s - i)%nat.
Proof.
  revert i. induction s as [|c s IH]; intros [|i] Hi; simpl in *; try lia.
  - by rewrite substring_0_length.
  - apply IH. lia.
Qed.

Lemma get_Some_lt s i c : get i s = Some c → (i < String.length s)%nat.
Proof.
  revert i. induction s as [|c' s IH]; intros [|i] H; simpl in *;
    try done; try lia.
  apply IH in H. lia.
Qed.

Lemma Ext_loop_suffix path n :
  Ext_loop path n = "" ∨
  ∃ i, (i < String.length path)%nat ∧
       Ext_loop path n = substring i (String.length path - i) path.
Proof.
  induction n as [|i IH]; simpl; [by left|].
  destruct (get i path) as [c|] eqn:E; [|by left].
  destruct (Ascii.eqb c "/"); [by left|].
  destruct (Ascii.eqb c "."); [|done].
  right. exists i. split; [|done]. by eapply get_Some_lt.
Qed.

Lemma string_app_nil_r s : s +:+ "" = s.
Proof.
  induction s as [|c s IH]; [done|]. by rewrite string_app_cons, IH.
Qed.

Lemma substring_none s n : substring n 0 s = "".
Proof. revert n. induction s as [|c s IH]; intros [|n]; simpl; done. Qed.

(** A path is what [TrimSuffix] leaves of it, followed by its
    extension. *)
Lemma TrimSuffix_Ext f : TrimSuffix f (Ext f) +:+ Ext f = f.
Proof.
  unfold TrimSuffix, HasSuffix, Ext.
  destruct (Ext_loop_suffix f (String.length f)) as [->|(i & Hi & ->)].
  - simpl. rewrite substring_none, Nat.sub_0_r. simpl.
    by rewrite substring_0_length, string_app_nil_r.
  - rewrite substring_tail_length by lia.
    replace (String.length f - (String.length f - i))%nat with i by lia.
    rewrite String.eqb_refl.
    replace (String.length f - i <=? String.length f)%nat with true
      by (symmetry; apply Nat.leb_le; lia).
    simpl. apply substring_split. lia.
Qed.

Lemma wrap64_small z : - 2 ^ 63 ≤ z ≤ max_int64 → wrap64 z = z.
Proof. unfold wrap64, max_int64. intros H. rewrite Z.mod_small; lia. Qed.

Lemma Stat_ok_true disk name : Stat_ok disk name = true ↔ is_Some (disk !! name).
Proof.
  unfold Stat_ok. destruct (disk !! name); split; done.
Qed.

Lemma Stat_ok_false disk name : Stat_ok disk name = false ↔ disk !! name = None.
Proof. unfold Stat_ok. by destruct (disk !! name). Qed.

Lemma GetUniqueName_loop_None disk f ext fuel i name :
  1 ≤ i → i + Z.of_nat fuel ≤ max_int64 →
  GetUniqueName_loop disk f ext fuel i name = None →
  Stat_ok disk name = true ∧
  ∀ j, i ≤ j < i + Z.of_nat fuel → Stat_ok disk (numbered f ext j) = true.
Proof.
  revert i name. induction fuel as [|fuel IH]; intros i name Hi Hb; simpl.
  - destruct (Stat_ok disk name); [|done]. intros _. split; [done|]. lia.
  - destruct (Stat_ok disk name); [|done].
    rewrite wrap64_small by (unfold max_int64 in *; lia).
    intros [H1 H2]%IH; [|lia..]. split; [done|].
    intros j Hj. destruct (decide (j = i)) as [->|]; [done|]. apply H2. lia.
Qed.

Lemma GetUniqueName_loop_Some disk f ext fuel i name r :
  1 ≤ i → i + Z.of_nat fuel ≤ max_int64 →
  GetUniqueName_loop disk f ext fuel i name = Some r →
  (Stat_ok disk name = false ∧ r = name) ∨
  (Stat_ok disk name = true ∧
   ∃ k, i ≤ k < i + Z.of_nat fuel ∧ r = numbered f ext k ∧
        Stat_ok disk (numbered f ext k) = false ∧
        ∀ j, i ≤ j < k → Stat_ok disk (numbered f ext j) = true).
Proof.
  revert i name. induction fuel as [|fuel IH]; intros i name Hi Hb; simpl.
  - destruct (Stat_ok disk name); [done|]. intros [= <-]. by left.
  - destruct (Stat_ok disk name); [|intros [= <-]; by left].
    rewrite wrap64_small by (unfold max_int64 in *; lia).
    intros [[H1 ->]|[H1 (k & Hk & -> & Hfree & Hbelow)]]%IH; [| |lia..]; right;
      (split; [done|]).
    + exists i. repeat split; try done; lia.
    + exists k. repeat split; try done; try lia.
      intros j Hj. destruct (decide (j = i)) as [->|]; [done|].
      apply Hbelow. lia.
Qed.

(** A disk cannot hold more numbered names than it has names. *)
Lemma numbered_not_all_taken (disk : gmap string FileData) f ext :
  ¬ ∀ j, 1 ≤ j < 1 + Z.of_nat (S (size disk)) →
         Stat_ok disk (numbered f ext j) = true.
Proof.
  intros Hall.
  set (l := (λ n, numbered f ext (Z.of_nat n)) <$> seq 1 (S (size disk))).
  assert (Hnd : NoDup l).
  { apply NoDup_fmap_2_strong; [|apply NoDup_seq].
    intros x y _ _ H%numbered_inj. lia. }
  assert (Hsub : ∀ x, x ∈ l → x ∈ elements (dom disk)).
  { intros x (n & -> & Hn%elem_of_seq)%list_elem_of_fmap.
    apply elem_of_elements, elem_of_dom, Stat_ok_true, Hall. lia. }
  pose proof (submseteq_length _ _ (NoDup_submseteq _ _ Hnd Hsub)) as Hlen.
  unfold l in Hlen. rewrite length_fmap, length_seq in Hlen.
  change (length (elements (dom disk))) with (size (dom disk)) in Hlen.
  rewrite size_dom in Hlen. lia.
Qed.

(** C9. On a disk with fewer than 2^63 - 2 names GetUniqueName returns
    a name: [f] itself when no file has this name, and otherwise the
    first of the names [numbered f (Ext f) 1], [numbered f (Ext f) 2],
    ... that no file has, where [numbered f (Ext f) k] is [f] with
    [" (k)"] put in before its extension.  So it returns book (2).epub
    for book.epub when book.epub and book (1).epub are there and
    book (2).epub is not. *)
Theorem GetUniqueName_first_free (disk : gmap string FileData) (f : string) :
  Z.of_nat (size disk) < max_int64 - 1 →
  (∀ k, numbered f (Ext f) k
        = TrimSuffix f (Ext f) +:+ " (" +:+ Itoa k +:+ ")" +:+ Ext f) ∧
  TrimSuffix f (Ext f) +:+ Ext f = f ∧
  (disk !! f = None → GetUniqueName disk f = Some f) ∧
  (is_Some (disk !! f) →
   ∃ k, 1 ≤ k ∧
        GetUniqueName disk f = Some (numbered f (Ext f) k) ∧
        disk !! numbered f (Ext f) k = None ∧
        ∀ j, 1 ≤ j < k → is_Some (disk !! numbered f (Ext f) j)) ∧
  (f = "book.epub" →
   is_Some (disk !! "book.epub") →
   is_Some (disk !! "book (1).epub") →
   disk !! "book (2).epub" = None →
   GetUniqueName disk f = Some "book (2).epub").
Proof.
  intros Hsize.
  assert (Hfound : is_Some (disk !! f) →
    ∃ k, 1 ≤ k ∧
         GetUniqueName disk f = Some (numbered f (Ext f) k) ∧
         disk !! numbered f (Ext f) k = None ∧
         ∀ j, 1 ≤ j < k → is_Some (disk !! numbered f (Ext f) j)).
  { intros Hf%Stat_ok_true. unfold GetUniqueName.
    destruct (GetUniqueName_loop disk f (Ext f) (S (size disk)) 1 f)
      as [r|] eqn:E.
    - apply GetUniqueName_loop_Some in E
        as [[E _]|[_ (k & Hk & -> & Hfree & Hbelow)]]; [congruence| |lia..].
      exists k. split; [lia|]. split; [done|].
      split; [by apply Stat_ok_false|].
      intros j Hj. by apply Stat_ok_true, Hbelow.
    - apply GetUniqueName_loop_None in E as [_ E]; [|lia..].
      by apply numbered_not_all_taken in E. }
  split; [done|]. split; [apply TrimSuffix_Ext|]. split; [|split; [done|]].
  - intros Hf%Stat_ok_false. unfold GetUniqueName. simpl. by rewrite Hf.
  - intros -> H0 H1 H2.
    destruct (Hfound H0) as (k & Hk & -> & Hfree & Hbelow). f_equal.
    destruct (decide (k = 1)) as [->|].
    { change (numbered "book.epub" (Ext "book.epub") 1) with "book (1).epub"
        in Hfree. rewrite Hfree in H1. by destruct H1. }
    destruct (decide (k = 2)) as [->|]; [done|].
    specialize (Hbelow 2 ltac:(lia)).
    change (numbered "book.epub" (Ext "book.epub") 2) with "book (2).epub"
      in Hbelow. rewrite H2 in Hbelow. by destruct Hbelow.
Qed.

(** ** Running a computation *)

Lemma bind_run {A B} (m : M A) (f : A → M B) (w : World) :
  (m ≫= f) w = f (m w).1 (m w).2.
Proof. unfold mbind, M_bind. by destruct (m w). Qed.

Lemma consult_run (w : World) :
  consult w = (hd Succeeds (plan w), tick w).
Proof. unfold consult, tick. by destruct w as [s t d [|o p]]. Qed.

Lemma works_S n w :
  works (S n) w → hd Succeeds (plan w) = Succeeds ∧ works n (tick w).
Proof.
  unfold works, tick. destruct w as [s t d [|o p]]; simpl.
  - intros _. split; [done|]. by rewrite take_nil.
  - intros H. by apply Forall_cons in H.
Qed.

Lemma calm_tick w : calm w → hd Succeeds (plan w) = Succeeds ∧ calm (tick w).
Proof.
  unfold calm, tick. destruct w as [s t d [|o p]]; simpl; [done|].
  intros H. by apply Forall_cons in H.
Qed.

Lemma calm_works n w : calm w → works n w.
Proof. unfold calm, works. intros H. by apply Forall_take. Qed.

Lemma keeps_ret {A X} (part : World → X) (x : A) : keeps part (mret x).
Proof. done. Qed.

Lemma keeps_bind {A B X} (part : World → X) (m : M A) (f : A → M B) :
  keeps part m → (∀ x, keeps part (f x)) → keeps part (m ≫= f).
Proof. intros Hm Hf w. rewrite bind_run, Hf. apply Hm. Qed.

Lemma keeps_act {A X} (part : World → X) (f : World → A * World) :
  (∀ w, part (f w).2 = part w) → keeps part (act f).
Proof. done. Qed.

Lemma keeps_outside_store {A} (m : M A) : keeps outside m → keeps store m.
Proof. intros H w. specialize (H w). unfold outside in H. congruence. Qed.

Lemma keeps_outside_disk {A} (m : M A) : keeps outside m → keeps disk m.
Proof. intros H w. specialize (H w). unfold outside in H. congruence. Qed.

Lemma keeps_consult : keeps outside consult.
Proof. intros w. by rewrite consult_run. Qed.

Lemma keeps_consult_store : keeps store consult.
Proof. intros w. by rewrite consult_run. Qed.

Create HintDb keeps.
#[local] Hint Resolve keeps_consult keeps_consult_store : keeps.

(** Splits a computation along its binds and case distinctions. *)
Ltac keeps :=
  repeat match goal with
    | |- keeps _ (mret _) => apply keeps_ret
    | |- keeps _ (mbind _ _) => apply keeps_bind; [ | intros ]
    | |- keeps _ (act _) =>
        apply keeps_act; intros ?; simpl; repeat case_match; done
    | |- keeps _ (match ?x with _ => _ end) => destruct x
    | |- keeps store _ =>
        solve [ auto with keeps | apply keeps_outside_store; auto with keeps ]
    | |- keeps _ _ => solve [ auto with keeps ]
    end.

Lemma keeps_Begin : keeps outside Begin.
Proof. unfold Begin. keeps. Qed.

Lemma keeps_Rollback : keeps outside Rollback.
Proof. done. Qed.

Lemma keeps_tx_Query {R} (q : DB → list R) : keeps outside (tx_Query q).
Proof.
  intros w. unfold tx_Query. destruct (tx w); [|done].
  by rewrite consult_run.
Qed.

Lemma keeps_tx_Exec stmt : keeps outside (tx_Exec stmt).
Proof.
  intros w. unfold tx_Exec. destruct (tx w); [|done].
  rewrite consult_run. destruct (failed _); [done|].
  by destruct (stmt d) as [|[]].
Qed.

#[local] Hint Resolve keeps_Begin keeps_Rollback keeps_tx_Query keeps_tx_Exec
  : keeps.

Lemma keeps_tx_QueryRow_Scan {R} (q : DB → list R) :
  keeps outside (tx_QueryRow_Scan q).
Proof. unfold tx_QueryRow_Scan. keeps. Qed.

Lemma keeps_os_call what : keeps store (os_call what).
Proof. unfold os_call. keeps. Qed.

#[local] Hint Resolve keeps_tx_QueryRow_Scan keeps_os_call : keeps.

Lemma keeps_for_range {A X} (part : World → X) (body : A → M (option error)) l :
  (∀ x, keeps part (body x)) → keeps part (for_range body l).
Proof. intros H. induction l; simpl; keeps. Qed.

Lemma tx_Query_works {R} (q : DB → list R) w d n :
  tx w = Some d → works (S n) w →
  tx_Query q w = (inr (mkRows (q d) None), tick w).
Proof.
  intros Ht [Ho _]%works_S. unfold tx_Query.
  by rewrite Ht, consult_run, Ho.
Qed.


Lemma tx_Exec_works stmt w d n :
  tx w = Some d → works (S n) w →
  tx_Exec stmt w =
  match stmt d with
  | inl e => (inl e, tick w)
  | inr (d', id) => (inr id, set_tx (Some d') (tick w))
  end.
Proof.
  intros Ht [Ho _]%works_S. unfold tx_Exec.
  by rewrite Ht, consult_run, Ho.
Qed.

Lemma works_tick n w : works (S n) w → works n (tick w).
Proof. by intros [_ ?]%works_S. Qed.

Lemma filter_head {A} (P : A → Prop) `{∀ x, Decision (P x)} (l : list A) x :
  x ∈ l → P x → ∃ y rest, filter P l = y :: rest ∧ y ∈ l ∧ P y.
Proof.
  intros Hx HP.
  assert (Hin : x ∈ filter P l) by by apply list_elem_of_filter.
  destruct (filter P l) as [|y rest] eqn:E.
  - by apply elem_of_nil in Hin.
  - exists y, rest. split; [done|].
    assert (Hy : y ∈ filter P l) by (rewrite E; left).
    apply list_elem_of_filter in Hy as [? ?]. done.
Qed.

Lemma NoDup_fmap_elem_eq {A B} (f : A → B) (l : list A) x y :
  NoDup (f <$> l) → x ∈ l → y ∈ l → f x = f y → x = y.
Proof.
  induction l as [|a l IH]; simpl; intros Hnd Hx Hy Hf.
  - by apply elem_of_nil in Hx.
  - apply NoDup_cons in Hnd as [Ha Hnd].
    apply elem_of_cons in Hx as [->|Hx]; apply elem_of_cons in Hy as [->|Hy].
    + done.
    + exfalso. apply Ha. rewrite Hf. by apply list_elem_of_fmap_2.
    + exfalso. apply Ha. rewrite <- Hf. by apply list_elem_of_fmap_2.
    + by apply IH.
Qed.

Lemma insert_by_perm {A} (key : A → Z) x l : Sql.insert_by key x l ≡ₚ x :: l.
Proof.
  induction l as [|y l IH]; simpl; [done|].
  destruct (key x <=? key y); [done|].
  rewrite IH. apply Permutation_swap.
Qed.

(** ** Sorting and grouping *)

Lemma insert_by_sorted {A} (key : A → Z) x l :
  StronglySorted (λ a b, key a ≤ key b) l →
  StronglySorted (λ a b, key a ≤ key b) (Sql.insert_by key x l).
Proof.
  induction l as [|y l IH]; simpl; intros Hs.
  - repeat constructor.
  - apply StronglySorted_cons in Hs as [Hy Hs].
    destruct (key x <=? key y) eqn:E.
    + apply Z.leb_le in E. apply StronglySorted_cons. split.
      * constructor; [done|]. eapply Forall_impl; [done|]. simpl. lia.
      * by apply StronglySorted_cons.
    + apply Z.leb_gt in E. apply StronglySorted_cons. split; [|by apply IH].
      rewrite insert_by_perm. constructor; [lia|done].
Qed.

Lemma order_by_perm {A} (key : A → Z) l : Sql.order_by key l ≡ₚ l.
Proof.
  unfold Sql.order_by. induction l as [|x l IH]; simpl; [done|].
  by rewrite insert_by_perm, IH.
Qed.

Lemma order_by_sorted {A} (key : A → Z) l :
  StronglySorted (λ a b, key a ≤ key b) (Sql.order_by key l).
Proof.
  unfold Sql.order_by. induction l as [|x l IH]; simpl; [constructor|].
  by apply insert_by_sorted.
Qed.

Lemma StronglySorted_filter {A} (R : relation A) (P : A → Prop)
    `{∀ x, Decision (P x)} l :
  StronglySorted R l → StronglySorted R (filter P l).
Proof.
  induction l as [|x l IH]; [done|].
  intros [Hx Hs]%StronglySorted_cons. rewrite filter_cons.
  destruct (decide (P x)); [|by apply IH].
  apply StronglySorted_cons. split; [|by apply IH].
  apply Forall_forall. intros y [_ Hy]%list_elem_of_filter.
  by eapply Forall_forall in Hx.
Qed.

(** The loop [m[k] = append(m[k], v)] over rows [(k, v)] collects under
    every key the values of its rows, in the order of the rows. *)
Lemma foldl_map_append_lookup {V} (rows : list (Z * V)) (m : gmap Z (list V)) k :
  foldl (λ m '(k, v), map_append m k v) m rows !! k
  = match (filter (λ p, p.1 = k) rows).*2 with
    | [] => m !! k
    | vs => Some (default [] (m !! k) ++ vs)%list
    end.
Proof.
  revert m. induction rows as [|[k' v] rows IH]; intros m; [done|].
  cbn [foldl]. rewrite IH, filter_cons. unfold map_append. cbn [fst].
  destruct (decide (k' = k)) as [->|Hne].
  - rewrite lookup_insert_eq, fmap_cons. cbn [snd default].
    destruct ((filter (λ p, p.1 = k) rows).*2) as [|v' vs]; [done|].
    unfold id. by rewrite <- List.app_assoc.
  - by rewrite lookup_insert_ne.
Qed.

Lemma group_lookup {V} (rows : list (Z * V)) k :
  default [] (foldl (λ m '(k, v), map_append m k v) ∅ rows !! k)
  = (filter (λ p, p.1 = k) rows).*2.
Proof.
  rewrite foldl_map_append_lookup, lookup_empty.
  by destruct ((filter (λ p, p.1 = k) rows).*2).
Qed.

Lemma names_of_owner_rows (l : list (LinkRow * NameRow)) owner :
  (filter (λ p, p.1 = owner) ((λ p, (owner_id p.1, name p.2)) <$> l)).*2
  = (λ p, name p.2) <$> filter (λ p, owner_id p.1 = owner) l.
Proof.
  induction l as [|p l IH]; [done|].
  rewrite fmap_cons, !filter_cons. cbn [fst snd].
  destruct (decide (owner_id p.1 = owner)); [|done].
  rewrite !fmap_cons. cbn [snd]. by rewrite IH.
Qed.

(** The rows of the query for the names of owners, grouped by owner:
    under an owner that was asked for, its names in the order of the
    link ids. *)
Lemma names_of_owner_in_order ids links names owner :
  owner ∈ ids →
  linked_in_order links names owner
    (default []
       (foldl (λ m '(k, v), map_append m k v) ∅
          (Sql.select_names_of_owners ids links names) !! owner)).
Proof.
  intros Hin. rewrite group_lookup. unfold Sql.select_names_of_owners.
  rewrite names_of_owner_rows. eexists. split; [done|]. split.
  - apply StronglySorted_filter, order_by_sorted.
  - rewrite order_by_perm. rewrite list_filter_filter_l; [done|].
    by intros p ->.
Qed.

(** ** Row ids grow *)

Lemma next_rowid_above ids id : id ∈ ids → id < Sql.next_rowid ids.
Proof.
  unfold Sql.next_rowid. destruct ids as [|id0 rest].
  - by intros ?%elem_of_nil.
  - intros Hin.
    assert (H0 : id0 ≤ foldr Z.max id0 rest).
    { clear. induction rest as [|y rest IH]; simpl; lia. }
    assert (H : ∀ x, x ∈ rest → x ≤ foldr Z.max id0 rest).
    { clear. induction rest as [|y rest IH]; simpl.
      - by intros x ?%elem_of_nil.
      - intros x [->|Hx]%elem_of_cons; [lia|]. specialize (IH x Hx). lia. }
    apply elem_of_cons in Hin as [->|Hin]; [lia|]. specialize (H id Hin). lia.
Qed.

(** A link table in the order of its row ids stays so when a link is
    inserted, and keeps its rows in front: the order of the ids is the
    order of insertion. *)
Lemma insert_or_ignore_link_sorted owner member table :
  StronglySorted (λ a b, link_id a < link_id b) table →
  StronglySorted (λ a b, link_id a < link_id b)
    (Sql.insert_or_ignore_link owner member table) ∧
  table `prefix_of` Sql.insert_or_ignore_link owner member table.
Proof.
  intros Hs. unfold Sql.insert_or_ignore_link.
  destruct (decide (Exists _ table)); [done|]. split.
  - apply StronglySorted_app. split; [|split; [done|]].
    + intros a b Ha ->%list_elem_of_singleton. simpl.
      apply next_rowid_above. by apply list_elem_of_fmap_2.
    + repeat constructor.
  - by apply prefix_app_r.
Qed.

(** ** Sorting commutes with selecting *)

Lemma filter_insert_by_sorted {A} (key : A → Z) (P : A → Prop)
    `{∀ x, Decision (P x)} x l :
  StronglySorted (λ a b, key a ≤ key b) l →
  filter P (Sql.insert_by key x l)
  = if decide (P x) then Sql.insert_by key x (filter P l) else filter P l.
Proof.
  induction l as [|y l IH]; intros Hs.
  - simpl. rewrite filter_cons, filter_nil. by destruct (decide (P x)).
  - apply StronglySorted_cons in Hs as [Hy Hs]. simpl.
    destruct (key x <=? key y) eqn:E.
    + rewrite !filter_cons. destruct (decide (P x)) as [HPx|HPx]; [|done].
      destruct (decide (P y)).
      * simpl. by rewrite E.
      * (* every row that is left is not below [x] *)
        apply Z.leb_le in E.
        assert (Hall : Forall (λ z, key x ≤ key z) (filter P l)).
        { apply Forall_forall. intros z [_ Hz]%list_elem_of_filter.
          eapply Forall_forall in Hy; [|done]. simpl in Hy. lia. }
        destruct (filter P l) as [|z l'] eqn:El; [done|]. simpl.
        apply Forall_cons in Hall as [Hz _].
        by replace (key x <=? key z) with true
          by (symmetry; by apply Z.leb_le).
    + rewrite !filter_cons, IH by done.
      destruct (decide (P y)); [|done].
      destruct (decide (P x)); [|done]. simpl. by rewrite E.
Qed.

Lemma filter_order_by {A} (key : A → Z) (P : A → Prop)
    `{∀ x, Decision (P x)} l :
  filter P (Sql.order_by key l) = Sql.order_by key (filter P l).
Proof.
  induction l as [|x l IH]; [done|].
  change (Sql.order_by key (x :: l))
    with (Sql.insert_by key x (Sql.order_by key l)).
  rewrite filter_insert_by_sorted by apply order_by_sorted.
  rewrite filter_cons, IH. by destruct (decide (P x)).
Qed.

(** The names that the query for the authors of several books groups
    under one of them are the recorded authors of that book. *)
Lemma authors_of_books_grouped ids d b :
  b ∈ ids →
  default []
    (foldl (λ m '(k, v), map_append m k v) ∅
       (Sql.select_authors_of_books ids d) !! b)
  = recorded_authors d b.
Proof.
  intros Hb. rewrite group_lookup.
  unfold Sql.select_authors_of_books, Sql.select_names_of_owners.
  rewrite names_of_owner_rows. unfold recorded_authors. f_equal.
  rewrite !filter_order_by. f_equal.
  apply list_filter_filter_l. by intros p ->.
Qed.

(** A key of the grouped rows has at least one value. *)
Lemma group_lookup_Some {V} (rows : list (Z * V)) k vs :
  foldl (λ m '(k, v), map_append m k v) ∅ rows !! k = Some vs →
  vs ≠ [] ∧ k ∈ rows.*1.
Proof.
  rewrite foldl_map_append_lookup, lookup_empty.
  destruct ((filter (λ p, p.1 = k) rows).*2) as [|v vs'] eqn:E; [done|].
  simpl. intros [= <-]. split; [done|].
  assert (Hv : v ∈ (filter (λ p, p.1 = k) rows).*2) by (rewrite E; left).
  apply list_elem_of_fmap in Hv as ([k' v'] & _ & [Hk ?]%list_elem_of_filter).
  simpl in Hk. subst k'. by apply (list_elem_of_fmap_2 fst rows (k, v')).
Qed.

Lemma authorsEqual_eq a b : authorsEqual a b = true ↔ a = b.
Proof.
  unfold authorsEqual, len. split.
  - destruct (Z.of_nat (length a) =? Z.of_nat (length b)) eqn:E; [|done].
    apply Z.eqb_eq in E. simpl. intros H.
    apply (nth_ext _ _ "" ""); [lia|]. intros n Hn.
    rewrite forallb_forall in H. apply String.eqb_eq, H, in_seq. lia.
  - intros ->. rewrite Z.eqb_refl. simpl. apply forallb_forall.
    intros i _. apply String.eqb_refl.
Qed.

Lemma select_names_of_owners_owner ids links names k :
  k ∈ (Sql.select_names_of_owners ids links names).*1 → k ∈ ids.
Proof.
  unfold Sql.select_names_of_owners.
  intros ([k' n] & -> & (p & [= -> ->] & Hp)%list_elem_of_fmap)%list_elem_of_fmap.
  rewrite order_by_perm in Hp. simpl.
  by apply list_elem_of_filter in Hp as [? _].
Qed.

(** ** Runs without failures *)

Lemma quiet_tick d w : quiet d w → quiet d (tick w).
Proof. intros [[_ Hc]%calm_tick Ht]. by split. Qed.

Lemma tx_Query_quiet {R} (q : DB → list R) d w :
  quiet d w → tx_Query q w = (inr (mkRows (q d) None), tick w).
Proof. intros [Hc Ht]. by apply (tx_Query_works q w d 0), calm_works. Qed.

Lemma Begin_calm w :
  calm w → Begin w = (None, set_tx (Some (store w)) (tick w)).
Proof.
  intros [Ho _]%calm_tick. unfold Begin. by rewrite bind_run, consult_run, Ho.
Qed.

Lemma Commit_quiet d w :
  quiet d w → Commit w = (None, set_tx None (set_store d (tick w))).
Proof.
  intros [[Ho _]%calm_tick Ht]. unfold Commit. by rewrite Ht, consult_run, Ho.
Qed.

Lemma len_nil_iff {A} (l : list A) : (len l =? 0) = true ↔ l = [].
Proof. destruct l; simpl; split; done. Qed.

Lemma filter_elem_of_nil {A B} (f : A → B) (l : list A) `{EqDecision B} :
  filter (λ x, f x ∈ @nil B) l = [].
Proof.
  induction l as [|x l IH]; [done|]. rewrite filter_cons.
  destruct (decide (f x ∈ [])) as [H|_]; [|done]. by apply elem_of_nil in H.
Qed.

Lemma select_names_of_owners_nil links names :
  Sql.select_names_of_owners [] links names = [].
Proof. unfold Sql.select_names_of_owners. by rewrite filter_elem_of_nil. Qed.

Lemma getAuthorsByBookIds_quiet ids d w :
  quiet d w →
  ∃ w', getAuthorsByBookIds ids w
        = ((foldl (λ m '(k, v), map_append m k v) ∅
              (Sql.select_authors_of_books ids d), None), w') ∧
        quiet d w' ∧ store w' = store w.
Proof.
  intros Hq. unfold getAuthorsByBookIds.
  destruct (len ids =? 0) eqn:E.
  - apply len_nil_iff in E as ->. exists w.
    unfold Sql.select_authors_of_books.
    by rewrite select_names_of_owners_nil.
  - rewrite bind_run, (tx_Query_quiet _ d w Hq). simpl.
    eexists. split; [done|]. split; [by apply quiet_tick|done].
Qed.

Lemma getTagsByFileIds_quiet ids d w :
  quiet d w →
  ∃ w', getTagsByFileIds ids w
        = ((foldl (λ m '(k, v), map_append m k v) ∅
              (Sql.select_tags_of_files ids d), None), w') ∧
        quiet d w' ∧ store w' = store w.
Proof.
  intros Hq. unfold getTagsByFileIds.
  destruct (len ids =? 0) eqn:E.
  - apply len_nil_iff in E as ->. exists w.
    unfold Sql.select_tags_of_files.
    by rewrite select_names_of_owners_nil.
  - rewrite bind_run, (tx_Query_quiet _ d w Hq). simpl.
    eexists. split; [done|]. split; [by apply quiet_tick|done].
Qed.

Lemma getFilesById_quiet ids d w :
  quiet d w →
  ∃ fs w', getFilesById ids w = ((fs, None), w') ∧
           quiet d w' ∧ store w' = store w ∧ tags_in_order d fs.
Proof.
  intros Hq. unfold getFilesById.
  destruct (len ids =? 0) eqn:E.
  - exists [], w. split; [done|]. split; [done|]. split; [done|]. by intros bf ?%elem_of_nil.
  - rewrite bind_run.
    destruct (getTagsByFileIds_quiet ids d w Hq) as (w1 & -> & Hq1 & Hs1).
    simpl. rewrite bind_run, (tx_Query_quiet _ d w1 Hq1). simpl.
    eexists _, _. split; [done|]. split; [by apply quiet_tick|].
    split; [done|].
    intros bf (r & -> & Hr)%list_elem_of_fmap. simpl.
    apply names_of_owner_in_order.
    unfold Sql.select_files_by_ids in Hr.
    by apply list_elem_of_filter in Hr as [? _].
Qed.

(** ** Paging *)


Lemma filter_by_ids_length {A} (f : A → Z) (ids : list Z) (l : list A) :
  NoDup (f <$> l) →
  (length (filter (λ r, f r ∈ ids) l) ≤ length ids)%nat.
Proof.
  intros Hnd. rewrite <- (length_fmap f).
  apply submseteq_length, NoDup_submseteq.
  - apply (sublist_NoDup _ (f <$> l)); [done|].
    apply fmap_sublist, sublist_filter.
  - by intros x (r & -> & [? _]%list_elem_of_filter)%list_elem_of_fmap.
Qed.


Lemma Begin_None w w' : Begin w = (None, w') → tx w' = Some (store w).
Proof.
  unfold Begin. rewrite bind_run, consult_run. simpl.
  destruct (failed _); [done|]. by intros [= <-].
Qed.

Lemma tx_Query_inr {R} (q : DB → list R) w rows w' :
  tx_Query q w = (inr rows, w') →
  ∃ d n, tx w = Some d ∧ delivered rows = take n (q d).
Proof.
  unfold tx_Query. destruct (tx w) as [d|]; [|done].
  rewrite consult_run. destruct (hd Succeeds (plan w)); simpl; [|done|].
  - intros [= <- _]. exists d, (length (q d)). by rewrite take_ge.
  - intros [= <- _]. by exists d, n.
Qed.

Section Properties.

Context {rt : Runtime}.

Lemma keeps_insertAuthor author book : keeps outside (insertAuthor author book).
Proof. unfold insertAuthor. keeps. Qed.

Lemma keeps_insertTag tag bf : keeps outside (insertTag tag bf).
Proof. unfold insertTag. keeps. Qed.

Lemma keeps_indexBookInSearch book createNew :
  keeps outside (indexBookInSearch book createNew).
Proof. unfold indexBookInSearch. keeps. Qed.

Lemma keeps_getAuthorsByBookIds ids : keeps outside (getAuthorsByBookIds ids).
Proof. unfold getAuthorsByBookIds. keeps. Qed.

Lemma keeps_getBookIdByTitleAndAuthors title authors :
  keeps outside (getBookIdByTitleAndAuthors title authors).
Proof.
  unfold getBookIdByTitleAndAuthors.
  pose proof keeps_getAuthorsByBookIds. keeps.
Qed.

Lemma keeps_copyFile src dst : keeps store (copyFile src dst).
Proof. unfold copyFile, Open, Create, Copy, Chtimes. keeps. Qed.

Lemma keeps_moveFile src dst : keeps store (moveFile src dst).
Proof.
  unfold moveFile, Rename, Remove. pose proof keeps_copyFile. keeps.
Qed.

Lemma keeps_moveOrCopyFile lib book move :
  keeps store (moveOrCopyFile lib book move).
Proof.
  unfold moveOrCopyFile, MkdirAll.
  pose proof keeps_copyFile. pose proof keeps_moveFile. keeps.
Qed.

Lemma keeps_ImportBook_store book : keeps outside (ImportBook_store book).
Proof.
  unfold ImportBook_store.
  pose proof keeps_getBookIdByTitleAndAuthors.
  pose proof keeps_insertAuthor. pose proof keeps_insertTag.
  pose proof keeps_indexBookInSearch.
  pose proof (@keeps_for_range string _ outside).
  keeps.
Qed.

Lemma select_file_ids_by_hash_present h d :
  h ∈ file_hash <$> files d →
  ∃ r rest, Sql.select_file_ids_by_hash h d = file_id r :: rest ∧
            r ∈ files d ∧ file_hash r = h.
Proof.
  unfold Sql.select_file_ids_by_hash. intros [r [-> Hr]]%list_elem_of_fmap.
  assert (Hin : r ∈ filter (λ r0, file_hash r0 = file_hash r) (files d))
    by by apply list_elem_of_filter.
  destruct (filter _ (files d)) as [|r' rest] eqn:E.
  - by apply elem_of_nil in Hin.
  - exists r', (file_id <$> rest). split; [done|].
    assert (Hr' : r' ∈ filter (λ r0, file_hash r0 = file_hash r) (files d))
      by (rewrite E; left).
    by apply list_elem_of_filter in Hr' as [? ?].
Qed.

Lemma ImportBook_store_duplicate book bf w :
  Files book = [bf] →
  Hash bf ∈ file_hash <$> files (store w) →
  (∃ e, (ImportBook_store book w).1 = inl e) ∧
  (works 2 w →
   tx (ImportBook_store book w).2 = None ∧
   ∃ f, f ∈ files (store w) ∧ file_hash f = Hash bf ∧
        (ImportBook_store book w).1 =
        inl (Some (New ("A duplicate book already exists with id "
                        +:+ FormatInt (file_id f))))).
Proof.
  intros HF Hh. unfold ImportBook_store. rewrite HF.
  destruct (select_file_ids_by_hash_present _ _ Hh) as (r & rest & Hq & Hr & Hrh).
  destruct w as [st t dk pl]. unfold works. simpl in *.
  unfold mbind, M_bind, Begin, tx_Query, consult, mbind, M_bind, mret, M_ret, act.
  destruct pl as [|[| |n] [|[| |[|m]] pl]]; simpl; rewrite ?Hq; simpl;
    (split; [by eauto|]); intros Hw;
    repeat match goal with
           | H : Forall _ (_ :: _) |- _ => apply Forall_cons in H as [? H]
           end; try discriminate; (split; [done|]); by exists r.
Qed.

(** C8. An item to import that carries no file, or more than one, is
    turned down with the error for malformed input before anything is
    asked of the store: the world, the plan of its operations included,
    is as it was. *)
Theorem ImportBook_one_file_only lib book move w :
  length (Files book) ≠ 1%nat →
  ImportBook lib book move w =
  (Some (New "Book to import must contain only one file"), w).
Proof.
  intros H. unfold ImportBook, ImportBook_store.
  destruct (Files book) as [|bf [|bf' rest]]; simpl in H; done.
Qed.

(** C1. When the hash of the file to import is already in the store,
    ImportBook leaves the committed tables and the disk as they were,
    whatever the store does; and when the start of the transaction and
    the look-up of the hash work, it ends the transaction and returns
    the duplicate error, which carries the id of a file with that
    hash. *)
Theorem ImportBook_duplicate_hash lib book bf move w :
  Files book = [bf] →
  Hash bf ∈ file_hash <$> files (store w) →
  works 2 w →
  store (ImportBook lib book move w).2 = store w ∧
  disk (ImportBook lib book move w).2 = disk w ∧
  tx (ImportBook lib book move w).2 = None ∧
  ∃ f, f ∈ files (store w) ∧ file_hash f = Hash bf ∧
       (ImportBook lib book move w).1 =
       Some (New ("A duplicate book already exists with id "
                  +:+ FormatInt (file_id f))).
Proof.
  intros HF Hh Hw.
  destruct (ImportBook_store_duplicate book bf w HF Hh) as [_ Hdup].
  destruct (Hdup Hw) as (Htx & f & Hf & Hfh & Hres).
  pose proof (keeps_ImportBook_store book w) as Hk. unfold outside in Hk.
  unfold ImportBook. rewrite bind_run.
  destruct (ImportBook_store book w) as [r w1]. simpl in *. subst r. simpl.
  repeat split; try congruence. by exists f.
Qed.

(** Whatever the store does, an import of a hash that is already there
    changes neither the committed tables nor the disk. *)
Lemma ImportBook_duplicate_hash_untouched lib book bf move w :
  Files book = [bf] →
  Hash bf ∈ file_hash <$> files (store w) →
  store (ImportBook lib book move w).2 = store w ∧
  disk (ImportBook lib book move w).2 = disk w.
Proof.
  intros HF Hh.
  destruct (ImportBook_store_duplicate book bf w HF Hh) as [[e He] _].
  pose proof (keeps_ImportBook_store book w) as Hk. unfold outside in Hk.
  unfold ImportBook. rewrite bind_run.
  destruct (ImportBook_store book w) as [r w1]. simpl in *. subst r. simpl.
  split; congruence.
Qed.

(** C6. When the steps on the store have all worked and the placement
    of the file fails, ImportBook returns the error of the placement,
    wrapped, ends the transaction, and the committed tables are the
    ones from before the import. *)
Theorem ImportBook_placement_failure lib book move w book' w1 e :
  ImportBook_store book w = (inr book', w1) →
  (moveOrCopyFile lib book' move w1).1 = Some e →
  (ImportBook lib book move w).1 = Some (Wrapped e "Moving or copying book") ∧
  store (ImportBook lib book move w).2 = store w ∧
  tx (ImportBook lib book move w).2 = None.
Proof.
  intros Hs Hp.
  pose proof (keeps_ImportBook_store book w) as Hk.
  pose proof (keeps_moveOrCopyFile lib book' move w1) as Hm.
  unfold outside in Hk. rewrite Hs in Hk. simpl in Hk.
  unfold ImportBook. rewrite bind_run, Hs. simpl. rewrite bind_run.
  destruct (moveOrCopyFile lib book' move w1) as [r w2]. simpl in *. subst r.
  simpl. repeat split; congruence.
Qed.

(** C4. In a transaction whose next operations work: for a new entry
    whose id has no document yet, indexBookInSearch adds the one
    document [new_document] and changes nothing else; for an entry that
    has a document, it replaces that document by [merged_document],
    the old texts followed by a space and the texts of the new file,
    repeated words included, and changes nothing else. *)
Theorem indexBookInSearch_document book bf w d :
  Files book = [bf] →
  tx w = Some d →
  works 2 w →
  NoDup (docid <$> books_fts d) →
  (Id book ∉ docid <$> books_fts d →
   ∃ fts, indexBookInSearch book true w
          = (None, set_tx (Some (set_books_fts fts d)) (tick w)) ∧
          fts ≡ₚ new_document book bf :: books_fts d) ∧
  (Id book ∈ docid <$> books_fts d →
   indexBookInSearch book false w
   = (None,
      set_tx
        (Some (set_books_fts
                 ((λ r, if decide (docid r = Id book)
                        then merged_document bf r else r) <$> books_fts d) d))
        (tick (tick w)))).
Proof.
  intros HF Ht Hw Hnd. unfold indexBookInSearch. rewrite HF. split.
  - intros Hfresh. rewrite bind_run, (tx_Exec_works _ w d 1 Ht Hw).
    unfold Sql.insert_fts. destruct (decide _) as [|_]; [done|]. simpl.
    eexists. split; [done|]. apply insert_by_perm.
  - intros [r [Hid Hr]]%list_elem_of_fmap.
    rewrite bind_run, (tx_Query_works _ w d 1 Ht Hw). simpl.
    unfold Sql.select_fts_by_docid.
    destruct (filter_head (λ r0, docid r0 = Id book) (books_fts d) r Hr)
      as (r0 & rest & -> & Hr0 & Hid0); [done|]. simpl.
    rewrite bind_run, (tx_Exec_works _ (tick w) d 0 Ht (works_tick _ _ Hw)).
    simpl. do 3 f_equal. f_equal. apply list_fmap_ext. intros i r' Hr'.
    rewrite Hid0. destruct (decide (docid r' = Id book)) as [Hid'|]; [|done].
    assert (r' = r0) as ->; [|done].
    apply (NoDup_fmap_elem_eq docid (books_fts d)); try done; [|congruence].
    by eapply list_elem_of_lookup_2.
Qed.

(** When the fetch of the document of an existing entry fails before
    its first row, indexBookInSearch returns nil and writes nothing. *)
Lemma indexBookInSearch_fetch_failure book bf w d p :
  Files book = [bf] →
  tx w = Some d →
  plan w = FailsAfter 0 :: p →
  indexBookInSearch book false w = (None, tick w).
Proof.
  intros HF Ht Hp. unfold indexBookInSearch. rewrite HF.
  rewrite bind_run. unfold tx_Query. rewrite Ht, consult_run, Hp. done.
Qed.

Lemma getFilesByBookIds_loop_quiet entries fileMap d w :
  quiet d w →
  (∀ b fs, fileMap !! b = Some fs → tags_in_order d fs) →
  ∃ fileMap' w',
    getFilesByBookIds_loop entries fileMap w = ((fileMap', None), w') ∧
    quiet d w' ∧ store w' = store w ∧
    (∀ b fs, fileMap' !! b = Some fs → tags_in_order d fs).
Proof.
  revert fileMap w.
  induction entries as [|[bookId fileIds] entries IH]; intros fileMap w Hq Hm.
  - by exists fileMap, w.
  - simpl. rewrite bind_run.
    destruct (getFilesById_quiet fileIds d w Hq) as (fs & w1 & -> & Hq1 & Hs1 & Hfs).
    simpl.
    destruct (IH (<[bookId := fs]> fileMap) w1 Hq1)
      as (fileMap' & w' & -> & Hq' & Hs' & Hm').
    { intros b fs' [[_ <-]|[_ ?]]%lookup_insert_Some; eauto. }
    exists fileMap', w'. repeat split; try done; try apply Hq'. congruence.
Qed.

Lemma getFilesByBookIds_quiet ids d w :
  quiet d w →
  ∃ fileMap w',
    getFilesByBookIds ids w = ((fileMap, None), w') ∧
    quiet d w' ∧ store w' = store w ∧
    (∀ b fs, fileMap !! b = Some fs → tags_in_order d fs).
Proof.
  intros Hq. unfold getFilesByBookIds.
  destruct (len ids =? 0).
  - exists ∅, w. split; [done|]. split; [done|]. split; [done|].
    intros b fs. by rewrite lookup_empty.
  - rewrite bind_run, (tx_Query_quiet _ d w Hq). simpl.
    destruct (getFilesByBookIds_loop_quiet
                (range_order _
                   (foldl (λ m '(fileId, bookId), map_append m bookId fileId) ∅
                      (Sql.select_file_ids_of_books ids d)))
                ∅ d (tick w) (quiet_tick _ _ Hq))
      as (fileMap & w' & -> & Hq' & Hs' & Hm').
    { intros b fs. by rewrite lookup_empty. }
    by exists fileMap, w'.
Qed.

(** What GetBooksById returns when nothing fails: the rows of [books]
    with an id of [ids], each with its authors from the grouped rows of
    the author query and its files from the file map. *)
Lemma GetBooksById_calm ids w :
  calm w →
  ∃ (fileMap : gmap Z (list BookFile)) w',
    GetBooksById ids w
    = (((λ book,
           set_Authors_Files
             (default []
                (foldl (λ m '(k, v), map_append m k v) ∅
                   (Sql.select_authors_of_books ids (store w)) !! Id book))
             (default [] (fileMap !! Id book)) book)
        <$> (scan_book <$> Sql.select_books_by_ids ids (store w)), None), w') ∧
    store w' = store w ∧
    (∀ b fs, fileMap !! b = Some fs → tags_in_order (store w) fs).
Proof.
  intros Hc. unfold GetBooksById.
  destruct (len ids =? 0) eqn:E.
  - apply len_nil_iff in E as ->. exists ∅, w.
    unfold Sql.select_books_by_ids. rewrite filter_elem_of_nil.
    split; [done|]. split; [done|]. intros b fs. by rewrite lookup_empty.
  - rewrite bind_run, (Begin_calm w Hc). simpl.
    assert (Hq : quiet (store w) (set_tx (Some (store w)) (tick w))).
    { split; [|done]. by apply calm_tick in Hc as [_ ?]. }
    rewrite bind_run, (tx_Query_quiet _ _ _ Hq). simpl.
    rewrite bind_run.
    destruct (getAuthorsByBookIds_quiet ids _ _ (quiet_tick _ _ Hq))
      as (w1 & -> & Hq1 & Hs1).
    simpl. rewrite bind_run.
    destruct (getFilesByBookIds_quiet ids _ _ Hq1)
      as (fileMap & w2 & -> & Hq2 & Hs2 & Hm).
    simpl. rewrite bind_run, (Commit_quiet _ _ Hq2). simpl.
    exists fileMap. eexists. split; [done|]. split; [done|]. done.
Qed.

(** C7. When nothing fails, every book that GetBooksById returns lists
    the names of its authors in the order of the ids of its rows in
    [books_authors], and every file of the book lists the names of its
    tags in the order of the ids of its rows in [files_tags]. *)
Theorem hydration_in_link_order ids w book :
  calm w →
  book ∈ (GetBooksById ids w).1.1 →
  linked_in_order (books_authors (store w)) (authors (store w)) (Id book)
    (Authors book) ∧
  ∀ bf, bf ∈ Files book →
        linked_in_order (files_tags (store w)) (tags (store w)) (FileId bf)
          (Tags bf).
Proof.
  intros Hc. destruct (GetBooksById_calm ids w Hc) as (fileMap & w' & -> & _ & Hm).
  simpl. intros (b & -> & (r & -> & Hr)%list_elem_of_fmap)%list_elem_of_fmap.
  simpl. split.
  - apply names_of_owner_in_order.
    by apply list_elem_of_filter in Hr as [? _].
  - intros bf. destruct (fileMap !! book_id r) as [fs|] eqn:E; simpl.
    + by apply (Hm _ _ E).
    + by intros ?%elem_of_nil.
Qed.

(** GetBooksById never returns more books than it was given ids. *)
Lemma GetBooksById_length ids w :
  NoDup (book_id <$> books (store w)) →
  (length (GetBooksById ids w).1.1 ≤ length ids)%nat.
Proof.
  intros Hnd. unfold GetBooksById.
  destruct (len ids =? 0); [simpl; lia|].
  rewrite bind_run. destruct (Begin w) as [[e|] w1] eqn:EB; simpl; [lia|].
  apply Begin_None in EB.
  rewrite bind_run.
  destruct (tx_Query (Sql.select_books_by_ids ids) w1) as [[e|rows] w2] eqn:EQ;
    simpl; [lia|].
  apply tx_Query_inr in EQ as (d & n & Hd & Hrows).
  assert (d = store w) as -> by congruence.
  destruct (rows_Err rows); [simpl; lia|].
  rewrite bind_run.
  destruct (getAuthorsByBookIds ids w2) as [[am [e|]] w3]; simpl; [lia|].
  rewrite bind_run.
  destruct (getFilesByBookIds ids w3) as [[fm [e|]] w4]; simpl; [lia|].
  rewrite bind_run.
  destruct (Commit w4) as [[e|] w5]; simpl; [lia|].
  rewrite !length_fmap, Hrows, length_take.
  pose proof (filter_by_ids_length book_id ids (books (store w)) Hnd).
  unfold Sql.select_books_by_ids. lia.
Qed.

(** ** The resolver *)

(** The resolver in a transaction in which nothing fails: the first
    entry of the author map, in the order the loop visits it, whose
    names equal the authors asked for. *)
Lemma getBookIdByTitleAndAuthors_quiet title authors d w :
  quiet d w →
  ∃ w',
    getBookIdByTitleAndAuthors title authors w
    = (match
         List.find (λ '(bookId, authorNames), authorsEqual authors authorNames)
           (range_order _
              (foldl (λ m '(k, v), map_append m k v) ∅
                 (Sql.select_authors_of_books
                    (Sql.select_book_ids_by_title title d) d)))
       with
       | Some (bookId, _) => (bookId, true, None)
       | None => (0, false, None)
       end, w') ∧
    quiet d w' ∧ store w' = store w.
Proof.
  intros Hq. unfold getBookIdByTitleAndAuthors.
  rewrite bind_run, (tx_Query_quiet _ d w Hq). simpl. rewrite bind_run.
  destruct (getAuthorsByBookIds_quiet (Sql.select_book_ids_by_title title d)
              d (tick w) (quiet_tick _ _ Hq)) as (w' & -> & Hq' & Hs').
  simpl. exists w'. split; [|done].
  by destruct (List.find _ _) as [[bookId names]|].
Qed.

(** X3. What the resolver finds is an entry with the title and with the
    authors as its recorded sequence, and the authors are not none. *)
Lemma getBookIdByTitleAndAuthors_found title authors d w id err :
  quiet d w →
  (getBookIdByTitleAndAuthors title authors w).1 = (id, true, err) →
  err = None ∧ authors ≠ [] ∧ recorded_authors d id = authors ∧
  ∃ r, r ∈ books d ∧ book_id r = id ∧ book_title r = title.
Proof.
  intros Hq.
  destruct (getBookIdByTitleAndAuthors_quiet title authors d w Hq)
    as (w' & -> & _). simpl.
  destruct (List.find _ _) as [[bookId names]|] eqn:E; [|done].
  intros [= -> <-]. apply find_some in E as [Hin ->%authorsEqual_eq].
  apply list_elem_of_In in Hin. rewrite range_order_perm in Hin.
  apply elem_of_map_to_list in Hin.
  destruct (group_lookup_Some _ _ _ Hin) as [Hne Hk].
  apply select_names_of_owners_owner in Hk.
  split; [done|]. split; [done|]. split.
  - by rewrite <- (authors_of_books_grouped _ d id Hk), Hin.
  - unfold Sql.select_book_ids_by_title in Hk.
    apply list_elem_of_fmap in Hk as (r & -> & [? ?]%list_elem_of_filter).
    by exists r.
Qed.

(** X4. The resolver finds an entry when one with the title has the
    authors, at least one, as its recorded sequence. *)
Lemma getBookIdByTitleAndAuthors_finds title authors d w r :
  quiet d w →
  authors ≠ [] →
  r ∈ books d →
  book_title r = title →
  recorded_authors d (book_id r) = authors →
  ∃ id, (getBookIdByTitleAndAuthors title authors w).1 = (id, true, None).
Proof.
  intros Hq Hne Hr Ht Hrec.
  destruct (getBookIdByTitleAndAuthors_quiet title authors d w Hq)
    as (w' & -> & _). simpl.
  assert (Hid : book_id r ∈ Sql.select_book_ids_by_title title d).
  { apply list_elem_of_fmap_2. by apply list_elem_of_filter. }
  pose proof (authors_of_books_grouped _ d _ Hid) as Hg. rewrite Hrec in Hg.
  destruct (foldl _ ∅ _ !! book_id r) as [names|] eqn:Hl; simpl in Hg;
    [subst names|done].
  apply elem_of_map_to_list in Hl. rewrite <- range_order_perm in Hl.
  apply list_elem_of_In in Hl.
  destruct (List.find _ _) as [[bookId names]|] eqn:E; [by exists bookId|].
  apply (find_none _ _ E) in Hl. simpl in Hl.
  by rewrite (proj2 (authorsEqual_eq authors authors)) in Hl.
Qed.

(** X5. For no authors the resolver finds nothing, whatever the store
    holds and does. *)
Lemma getBookIdByTitleAndAuthors_no_authors title w :
  (getBookIdByTitleAndAuthors title [] w).1.1.2 = false.
Proof.
  unfold getBookIdByTitleAndAuthors. rewrite bind_run.
  destruct (tx_Query _ w) as [[e|rows] w1]; simpl; [done|].
  rewrite bind_run. unfold getAuthorsByBookIds.
  destruct (len (delivered rows) =? 0); simpl.
  - destruct (List.find _ _) as [[bookId names]|] eqn:E; [|done].
    apply find_some in E as [Hin _]. apply list_elem_of_In in Hin.
    rewrite range_order_perm in Hin. apply elem_of_map_to_list in Hin.
    by rewrite lookup_empty in Hin.
  - rewrite bind_run.
    destruct (tx_Query _ w1) as [[e|rows'] w2]; simpl; [done|].
    destruct (List.find _ _) as [[bookId names]|] eqn:E; [|done].
    apply find_some in E as [Hin <-%authorsEqual_eq].
    apply list_elem_of_In in Hin.
    rewrite range_order_perm in Hin. apply elem_of_map_to_list in Hin.
    by apply group_lookup_Some in Hin as [? _].
Qed.





(** X7. A document that is missing for an entry that is known is
    reported and nothing is written. *)
Lemma indexBookInSearch_missing_document book bf w d :
  Files book = [bf] →
  tx w = Some d →
  works 1 w →
  Id book ∉ docid <$> books_fts d →
  indexBookInSearch book false w
  = (Some (New ("Existing book " +:+ FormatInt (Id book)
                +:+ " not found in FTS")), tick w).
Proof.
  intros HF Ht Hw Hno. unfold indexBookInSearch. rewrite HF.
  rewrite bind_run, (tx_Query_works _ w d 0 Ht Hw). simpl.
  unfold Sql.select_fts_by_docid.
  destruct (filter (λ r, docid r = Id book) (books_fts d)) as [|r rest] eqn:E;
    [done|].
  exfalso. apply Hno.
  assert (Hr : r ∈ filter (λ r, docid r = Id book) (books_fts d))
    by (rewrite E; left).
  apply list_elem_of_filter in Hr as [<- Hr]. by apply list_elem_of_fmap_2.
Qed.

(** X8. A query or a statement of indexBookInSearch that the store
    refuses gives its error to the caller. *)
Lemma indexBookInSearch_refused book bf createNew w d p :
  Files book = [bf] →
  tx w = Some d →
  plan w = Fails :: p →
  ∃ e, indexBookInSearch book createNew w = (Some e, tick w).
Proof.
  intros HF Ht Hp. unfold indexBookInSearch. rewrite HF.
  destruct createNew; rewrite bind_run.
  - unfold tx_Exec. rewrite Ht, consult_run, Hp. simpl. by eexists.
  - unfold tx_Query. rewrite Ht, consult_run, Hp. simpl. by eexists.
Qed.

(** X1. ImportBook changes the committed tables only when it returns
    nil. *)
Lemma ImportBook_all_or_nothing lib book move w :
  (ImportBook lib book move w).1 ≠ None →
  store (ImportBook lib book move w).2 = store w.
Proof.
  pose proof (keeps_ImportBook_store book w) as Hk. unfold outside in Hk.
  unfold ImportBook. rewrite bind_run.
  destruct (ImportBook_store book w) as [[err|book'] w1]; simpl in *.
  - intros _. congruence.
  - pose proof (keeps_moveOrCopyFile lib book' move w1) as Hm.
    rewrite bind_run.
    destruct (moveOrCopyFile lib book' move w1) as [[e|] w2]; simpl in *.
    + intros _. congruence.
    + rewrite bind_run. by destruct (Commit w2).
Qed.

(** C10. Search returns the books and the error of SearchPaged with
    offset, limit and moreResultsLimit zero, and leaves the world as
    that call leaves it. *)
Theorem Search_is_SearchPaged_unpaged terms w :
  Search terms w =
  ((SearchPaged terms 0 0 0 w).1.1.1, (SearchPaged terms 0 0 0 w).1.2,
   (SearchPaged terms 0 0 0 w).2).
Proof.
  unfold Search. rewrite bind_run.
  by destruct (SearchPaged terms 0 0 0 w) as [[[books more] err] w'].
Qed.

End Properties.

(** * More of the library *)

(** ** Queries change nothing *)

Lemma keeps_inner_consult : keeps inner consult.
Proof. intros w. by rewrite consult_run. Qed.

Lemma keeps_inner_tx_Query {R} (q : DB → list R) : keeps inner (tx_Query q).
Proof.
  intros w. unfold tx_Query. destruct (tx w) eqn:E; [|done].
  rewrite consult_run. unfold inner. simpl. by rewrite E.
Qed.

#[local] Hint Resolve keeps_inner_consult keeps_inner_tx_Query : keeps.

Lemma keeps_inner_getTagsByFileIds ids : keeps inner (getTagsByFileIds ids).
Proof. unfold getTagsByFileIds. keeps. Qed.

Lemma keeps_inner_getAuthorsByBookIds ids :
  keeps inner (getAuthorsByBookIds ids).
Proof. unfold getAuthorsByBookIds. keeps. Qed.

#[local] Hint Resolve keeps_inner_getTagsByFileIds
  keeps_inner_getAuthorsByBookIds : keeps.

Lemma keeps_inner_getFilesById ids : keeps inner (getFilesById ids).
Proof. unfold getFilesById. keeps. Qed.

#[local] Hint Resolve keeps_inner_getFilesById : keeps.

Lemma keeps_inner_getFilesByBookIds_loop entries fileMap :
  keeps inner (getFilesByBookIds_loop entries fileMap).
Proof.
  revert fileMap. induction entries as [|[bookId fileIds] entries IH];
    intros fileMap; simpl; keeps.
Qed.

#[local] Hint Resolve keeps_inner_getFilesByBookIds_loop : keeps.

(** What [tx.Commit] does to a transaction on the tables [d]: it ends
    it, and the committed tables are [d] or the ones from before. *)
Lemma Commit_ends d w :
  tx w = Some d →
  tx (Commit w).2 = None ∧ disk (Commit w).2 = disk w ∧
  (store (Commit w).2 = d ∨ store (Commit w).2 = store w).
Proof.
  intros Ht. unfold Commit. rewrite Ht, consult_run.
  destruct (failed _); simpl; auto.
Qed.

Lemma Begin_cases w :
  (∃ e, Begin w = (Some e, tick w)) ∨
  Begin w = (None, set_tx (Some (store w)) (tick w)).
Proof.
  unfold Begin. rewrite bind_run, consult_run. simpl.
  destruct (failed _); [left; by eexists|by right].
Qed.

(** ** joinInt64s *)

Lemma chars_app s t :
  list_ascii_of_string (s +:+ t)
  = (list_ascii_of_string s ++ list_ascii_of_string t)%list.
Proof.
  induction s as [|c s IH]; [done|].
  rewrite string_app_cons. simpl. by rewrite IH.
Qed.

Lemma string_of_uint_chars d c :
  c ∈ list_ascii_of_string (NilEmpty.string_of_uint d) →
  c ∈ list_ascii_of_string "0123456789".
Proof.
  induction d as [|d IH|d IH|d IH|d IH|d IH|d IH|d IH|d IH|d IH|d IH];
    simpl; intros Hc;
    [by apply elem_of_nil in Hc
    |apply elem_of_cons in Hc as [->|Hc]; [|by apply IH]..];
    apply (bool_decide_unpack _); by vm_compute.
Qed.

Lemma FormatInt_chars i c :
  c ∈ list_ascii_of_string (FormatInt i) →
  c ∈ list_ascii_of_string "-0123456789".
Proof.
  unfold FormatInt. destruct (Z.to_int i) as [d|d]; simpl.
  - intros H%string_of_uint_chars. by right.
  - intros [->|H%string_of_uint_chars]%elem_of_cons; [left|by right].
Qed.

Lemma FormatInt_nonempty i : FormatInt i ≠ "".
Proof.
  unfold FormatInt. intros H.
  pose proof (NilEmpty.isi (Z.to_int i)) as Hisi. rewrite H in Hisi.
  simpl in Hisi. injection Hisi as Hi.
  pose proof (DecimalZ.of_to i) as Hof. rewrite <- Hi in Hof. simpl in Hof.
  subst i. done.
Qed.

Lemma FormatInt_inj i j : FormatInt i = FormatInt j → i = j.
Proof. apply Itoa_inj. Qed.

Lemma Join_cons s t rest sep :
  Join (s :: t :: rest) sep = s +:+ sep +:+ Join (t :: rest) sep.
Proof. done. Qed.

(** X17. The text that joinInt64s makes of ids holds nothing but digits,
    minus signs and the characters of the separator. *)
Theorem joinInt64s_characters items sep c :
  c ∈ list_ascii_of_string (joinInt64s items sep) →
  c ∈ list_ascii_of_string "-0123456789" ∨ c ∈ list_ascii_of_string sep.
Proof.
  unfold joinInt64s. induction items as [|i [|j rest] IH].
  - by intros ?%elem_of_nil.
  - simpl. intros H%FormatInt_chars. by left.
  - rewrite (fmap_cons _ i), (fmap_cons _ j), Join_cons.
    rewrite <- (fmap_cons _ j). rewrite !chars_app.
    intros [H%FormatInt_chars|[H|H]%elem_of_app]%elem_of_app; auto.
Qed.

Lemma string_app_nil_l s : "" +:+ s = s.
Proof. done. Qed.

Lemma split_at_comma s1 s2 r1 r2 :
  ("," : ascii) ∉ list_ascii_of_string s1 →
  ("," : ascii) ∉ list_ascii_of_string s2 →
  s1 +:+ "," +:+ r1 = s2 +:+ "," +:+ r2 →
  s1 = s2 ∧ r1 = r2.
Proof.
  revert s2. induction s1 as [|c s1 IH]; intros [|c' s2] H1 H2 H;
    rewrite ?string_app_cons, ?string_app_nil_l in H.
  - by injection H as ->.
  - injection H as <- _. exfalso. apply H2. left.
  - injection H as -> _. exfalso. apply H1. left.
  - injection H as -> H.
    destruct (IH s2) as [-> ->]; try done.
    + intros Hin. apply H1. simpl. by right.
    + intros Hin. apply H2. simpl. by right.
Qed.

Lemma FormatInt_no_comma i : ("," : ascii) ∉ list_ascii_of_string (FormatInt i).
Proof.
  intros H%FormatInt_chars. simpl in H.
  repeat (apply elem_of_cons in H as [H|H]; [done|]).
  by apply elem_of_nil in H.
Qed.

(** X18. With a comma between them the ids can be read back: lists of
    ids that joinInt64s gives the same text are the same list. *)
Theorem joinInt64s_comma_inj (a b : list Z) :
  joinInt64s a "," = joinInt64s b "," → a = b.
Proof.
  unfold joinInt64s. revert b.
  assert (Hcons : ∀ i j rest,
    Join ((λ item, FormatInt item) <$> i :: j :: rest) ","
    = FormatInt i +:+ "," +:+ Join ((λ item, FormatInt item) <$> j :: rest) ",")
    by done.
  assert (Hcomma : ∀ s r, ("," : ascii) ∈ list_ascii_of_string (s +:+ "," +:+ r)).
  { intros s r. rewrite chars_app. apply elem_of_app. right. left. }
  induction a as [|i [|j ra] IH]; intros [|i' [|j' rb]] H.
  - done.
  - simpl in H. symmetry in H. by apply FormatInt_nonempty in H.
  - rewrite Hcons in H. exfalso.
    pose proof (FormatInt_nonempty i') as Hne.
    destruct (FormatInt i'); [done|]. by rewrite string_app_cons in H.
  - simpl in H. by apply FormatInt_nonempty in H.
  - simpl in H. by apply FormatInt_inj in H as ->.
  - rewrite Hcons in H. exfalso. apply (FormatInt_no_comma i).
    simpl in H. rewrite H. apply Hcomma.
  - rewrite Hcons in H. exfalso.
    pose proof (FormatInt_nonempty i) as Hne.
    destruct (FormatInt i); [done|]. by rewrite string_app_cons in H.
  - rewrite Hcons in H. exfalso. apply (FormatInt_no_comma i').
    simpl in H. rewrite <- H. apply Hcomma.
  - rewrite !Hcons in H.
    apply split_at_comma in H as [->%FormatInt_inj H];
      try apply FormatInt_no_comma.
    f_equal. by apply IH.
Qed.

(** ** Copying and moving files *)

Lemma calm_consult w : calm w → consult w = (Succeeds, tick w) ∧ calm (tick w).
Proof. intros [Ho Hc]%calm_tick. by rewrite consult_run, Ho. Qed.

(** Runs the next operation of a computation in a world where nothing
    fails. *)
Ltac calm_step :=
  rewrite ?bind_run;
  match goal with
  | |- context [consult ?v] =>
      let H := fresh "Hc" in
      assert (H : calm v) by assumption;
      destruct (calm_consult v H) as [-> ?]; clear H
  end; unfold act, mret, M_ret; simpl.

(** When nothing fails, copyFile reports no error and leaves under [dst]
    the bytes and the modification time of [src]. *)
Lemma copyFile_calm src dst w data :
  calm w →
  disk w !! src = Some data →
  (copyFile src dst w).1 = None ∧ calm (copyFile src dst w).2 ∧
  disk (copyFile src dst w).2 = <[dst := data]> (disk w) ∧
  store (copyFile src dst w).2 = store w ∧
  tx (copyFile src dst w).2 = tx w.
Proof.
  intros Hc Hsrc. unfold copyFile, Open, os_call, Create, Copy, Chtimes.
  calm_step. rewrite Hsrc. simpl. do 6 calm_step.
  split; [done|]. split; [done|]. split; [|done].
  rewrite !alter_insert_eq. simpl. by destruct data.
Qed.

(** X19. When nothing fails and [src] is a file other than [dst],
    copyFile reports no error, leaves [src] as it is and leaves under
    [dst] the bytes and the modification time of [src]; no other file
    changes. *)
Theorem copyFile_copies src dst w data :
  calm w →
  src ≠ dst →
  disk w !! src = Some data →
  (copyFile src dst w).1 = None ∧
  disk (copyFile src dst w).2 !! dst = Some data ∧
  disk (copyFile src dst w).2 !! src = Some data ∧
  ∀ name, name ≠ dst →
          disk (copyFile src dst w).2 !! name = disk w !! name.
Proof.
  intros Hc Hne Hsrc.
  destruct (copyFile_calm src dst w data Hc Hsrc) as (-> & _ & -> & _).
  split; [done|]. split; [apply lookup_insert_eq|].
  split; [by rewrite lookup_insert_ne|].
  intros name Hn. by rewrite lookup_insert_ne.
Qed.

(** X22. A source that is not on the disk makes copyFile fail before it
    creates anything: the disk is as it was. *)
Theorem copyFile_missing_source src dst w :
  disk w !! src = None →
  is_Some (copyFile src dst w).1 ∧ disk (copyFile src dst w).2 = disk w.
Proof.
  intros Hsrc. unfold copyFile, Open. rewrite !bind_run, consult_run.
  unfold act. simpl. rewrite Hsrc. by destruct (failed _).
Qed.

(** When the rename is refused and nothing else fails, moveFile copies
    and deletes. *)
Lemma moveFile_fallback src dst w data p :
  plan w = Fails :: p →
  Forall (λ o, o = Succeeds) p →
  disk w !! src = Some data →
  (moveFile src dst w).1 = None ∧
  disk (moveFile src dst w).2 = delete src (<[dst := data]> (disk w)).
Proof.
  intros Hp Hall Hsrc. unfold moveFile, Rename.
  rewrite !bind_run, consult_run, Hp. unfold act. simpl.
  assert (Hc : calm (tick w)) by (unfold calm, tick; simpl; by rewrite Hp).
  destruct (copyFile_calm src dst (tick w) data Hc Hsrc)
    as (Hr & Hc' & Hd & _).
  rewrite bind_run.
  destruct (copyFile src dst (tick w)) as [r w1]. simpl in *. subst r.
  unfold Remove. rewrite !bind_run.
  destruct (calm_consult w1 Hc') as [-> _]. unfold act. simpl.
  by rewrite Hd.
Qed.

(** X20. A move puts the file under [dst] and takes it away from
    [src], and it does so in the same way when the rename works and when
    the rename is refused and the copy and the delete work. *)
Theorem moveFile_moves src dst w data p :
  src ≠ dst →
  disk w !! src = Some data →
  Forall (λ o, o = Succeeds) p →
  plan w = Succeeds :: p ∨ plan w = Fails :: p →
  (moveFile src dst w).1 = None ∧
  disk (moveFile src dst w).2 = <[dst := data]> (delete src (disk w)).
Proof.
  intros Hne Hsrc Hall [Hp|Hp].
  - unfold moveFile, Rename. rewrite !bind_run, consult_run, Hp.
    unfold act. simpl. by rewrite Hsrc.
  - destruct (moveFile_fallback src dst w data p Hp Hall Hsrc) as [-> ->].
    split; [done|]. by rewrite delete_insert_ne.
Qed.

(** X21. Once the copy has worked, moveFile reports no error even when
    the source cannot be deleted; the file is then under both names. *)
Theorem moveFile_keeps_source_on_failed_delete src dst w data :
  src ≠ dst →
  disk w !! src = Some data →
  plan w = Fails :: replicate 7 Succeeds ++ [Fails] →
  (moveFile src dst w).1 = None ∧
  disk (moveFile src dst w).2 !! src = Some data ∧
  disk (moveFile src dst w).2 !! dst = Some data.
Proof.
  intros Hne Hsrc Hp. unfold moveFile, Rename, copyFile, Open, os_call,
    Create, Copy, Chtimes, Remove.
  destruct w as [st t dk pl]. simpl in *. subst pl.
  unfold mbind, M_bind, consult, act, mret, M_ret. simpl. rewrite Hsrc. simpl.
  split; [done|]. rewrite !alter_insert_eq. simpl.
  rewrite lookup_insert_ne by done. rewrite lookup_insert_eq.
  split; [done|]. by destruct data.
Qed.


(** ** Statements keep the tables consistent *)

Lemma next_rowid_fresh ids : Sql.next_rowid ids ∉ ids.
Proof. intros H%next_rowid_above. lia. Qed.

Lemma NoDup_snoc {A} (l : list A) x :
  NoDup l → x ∉ l → NoDup (l ++ [x])%list.
Proof.
  intros Hl Hx. apply NoDup_app. split; [done|]. split.
  - by intros y Hy ->%list_elem_of_singleton.
  - apply NoDup_singleton.
Qed.

Lemma insert_book_consistent pending series title d d' id :
  consistent pending d →
  Sql.insert_book series title d = inr (d', id) →
  consistent (id :: pending) d' ∧ id ∈ book_id <$> books d' ∧
  files d' = files d ∧
  ∀ b, b ∈ book_id <$> books d → b ∈ book_id <$> books d'.
Proof.
  intros [] [= <- <-].
  assert (Hgrow : ∀ b, b ∈ book_id <$> books d →
            b ∈ book_id <$>
                (books d ++ [mkBookRow (Sql.next_rowid (book_id <$> books d))
                               series title])%list).
  { intros b Hb. rewrite fmap_app. apply elem_of_app. by left. }
  split; [|split; [|done]].
  - constructor; simpl; try done.
    + rewrite fmap_app. apply NoDup_snoc; [done|]. apply next_rowid_fresh.
    + intros f Hf. by apply Hgrow, files_have_books0.
    + intros l Hl. destruct (books_authors_linked0 l Hl). split; [|done].
      by apply Hgrow.
    + intros b Hb. by apply Hgrow, documents_have_books0.
    + intros b. rewrite fmap_app.
      intros [Hb|Hb%list_elem_of_singleton]%elem_of_app.
      * destruct (books_have_documents0 b Hb); [by left|right; by right].
      * right. rewrite Hb. left.
  - simpl. rewrite fmap_app. apply elem_of_app. right. by left.
Qed.

Lemma insert_file_consistent pending book bf d d' id :
  consistent pending d →
  book ∈ book_id <$> books d →
  Sql.insert_file book bf d = inr (d', id) →
  consistent pending d' ∧ id ∈ file_id <$> files d' ∧ books d' = books d ∧
  Hash bf ∈ file_hash <$> files d'.
Proof.
  intros [] Hbook. unfold Sql.insert_file.
  destruct (decide _) as [|Hfresh]; [done|]. intros [= <- <-].
  split; [|split; [|split; [done|]]].
  - constructor; simpl; try done.
    + rewrite fmap_app. apply NoDup_snoc; [done|]. apply next_rowid_fresh.
    + rewrite fmap_app. by apply NoDup_snoc.
    + intros f [Hf|Hf%list_elem_of_singleton]%elem_of_app; [auto|by subst f].
    + intros l Hl. destruct (files_tags_linked0 l Hl). split; [|done].
      rewrite fmap_app. apply elem_of_app. by left.
  - simpl. rewrite fmap_app. apply elem_of_app. right. by left.
  - simpl. rewrite fmap_app. apply elem_of_app. right. by left.
Qed.

Lemma insert_name_fresh what n table table' id :
  NoDup (name_id <$> table) → NoDup (name <$> table) →
  Sql.insert_name what n table = inr (table', id) →
  NoDup (name_id <$> table') ∧ NoDup (name <$> table') ∧
  id ∈ name_id <$> table' ∧ mkNameRow id n ∈ table' ∧
  ∀ x, x ∈ name_id <$> table → x ∈ name_id <$> table'.
Proof.
  intros Hids Hnames. unfold Sql.insert_name.
  destruct (decide _) as [|Hfresh]; [done|]. intros [= <- <-].
  rewrite !fmap_app. simpl. repeat split.
  - apply NoDup_snoc; [done|]. apply next_rowid_fresh.
  - by apply NoDup_snoc.
  - apply elem_of_app. right. by left.
  - apply elem_of_app. right. by left.
  - intros x Hx. apply elem_of_app. by left.
Qed.

Lemma insert_author_consistent pending n d d' id :
  consistent pending d →
  Sql.insert_author n d = inr (d', id) →
  consistent pending d' ∧ id ∈ name_id <$> authors d' ∧
  books d' = books d ∧ files d' = files d.
Proof.
  intros [] . unfold Sql.insert_author.
  destruct (Sql.insert_name _ n (authors d)) as [e|[t i]] eqn:E; [done|].
  intros [= <- <-].
  destruct (insert_name_fresh _ _ _ _ _ author_ids_unique0 author_names_unique0 E)
    as (? & ? & ? & _ & Hgrow).
  split; [|done]. constructor; simpl; try done.
  intros l Hl. destruct (books_authors_linked0 l Hl). split; [done|].
  by apply Hgrow.
Qed.

Lemma insert_tag_consistent pending n d d' id :
  consistent pending d →
  Sql.insert_tag n d = inr (d', id) →
  consistent pending d' ∧ id ∈ name_id <$> tags d' ∧
  books d' = books d ∧ files d' = files d.
Proof.
  intros [] . unfold Sql.insert_tag.
  destruct (Sql.insert_name _ n (tags d)) as [e|[t i]] eqn:E; [done|].
  intros [= <- <-].
  destruct (insert_name_fresh _ _ _ _ _ tag_ids_unique0 tag_names_unique0 E)
    as (? & ? & ? & _ & Hgrow).
  split; [|done]. constructor; simpl; try done.
  intros l Hl. destruct (files_tags_linked0 l Hl). split; [done|].
  by apply Hgrow.
Qed.

Lemma insert_or_ignore_link_unique owner member table :
  NoDup ((λ l, (owner_id l, member_id l)) <$> table) →
  NoDup ((λ l, (owner_id l, member_id l))
         <$> Sql.insert_or_ignore_link owner member table).
Proof.
  intros Hnd. unfold Sql.insert_or_ignore_link.
  destruct (decide _) as [|Hno]; [done|].
  rewrite fmap_app. apply NoDup_snoc; [done|]. simpl.
  intros (l & [= Ho Hm] & Hl)%list_elem_of_fmap. apply Hno.
  apply Exists_exists. exists l. split; [done|]. by split.
Qed.

Lemma insert_or_ignore_link_elem owner member table l :
  l ∈ Sql.insert_or_ignore_link owner member table →
  l ∈ table ∨ (owner_id l = owner ∧ member_id l = member).
Proof.
  unfold Sql.insert_or_ignore_link. destruct (decide _); [by left|].
  intros [?|Hl%list_elem_of_singleton]%elem_of_app; [by left|subst l; by right].
Qed.

Lemma insert_books_authors_consistent pending book author d d' id :
  consistent pending d →
  book ∈ book_id <$> books d →
  author ∈ name_id <$> authors d →
  Sql.insert_or_ignore_books_authors book author d = inr (d', id) →
  consistent pending d' ∧ books d' = books d ∧ files d' = files d.
Proof.
  intros [] Hb Ha [= <- _]. split; [|done]. constructor; simpl; try done.
  - by apply insert_or_ignore_link_sorted.
  - by apply insert_or_ignore_link_unique.
  - intros l [Hl|[-> ->]]%insert_or_ignore_link_elem; auto.
Qed.

Lemma insert_files_tags_consistent pending file tag d d' id :
  consistent pending d →
  file ∈ file_id <$> files d →
  tag ∈ name_id <$> tags d →
  Sql.insert_or_ignore_files_tags file tag d = inr (d', id) →
  consistent pending d' ∧ books d' = books d ∧ files d' = files d.
Proof.
  intros [] Hf Ht [= <- _]. split; [|done]. constructor; simpl; try done.
  - by apply insert_or_ignore_link_sorted.
  - by apply insert_or_ignore_link_unique.
  - intros l [Hl|[-> ->]]%insert_or_ignore_link_elem; auto.
Qed.

Lemma insert_fts_consistent pending pending' id a se ti ex tg so d d' i :
  consistent pending d →
  id ∈ book_id <$> books d →
  (∀ x, x ∈ pending → x = id ∨ x ∈ pending') →
  Sql.insert_fts id a se ti ex tg so d = inr (d', i) →
  consistent pending' d' ∧ books d' = books d ∧ files d' = files d.
Proof.
  intros [] Hb Hp. unfold Sql.insert_fts.
  destruct (decide _) as [|Hfresh]; [done|]. intros [= <- _].
  split; [|done].
  assert (Hperm : docid <$> Sql.insert_by docid
                    (mkFtsRow id a se ti ex tg None so) (books_fts d)
                  ≡ₚ id :: (docid <$> books_fts d)).
  { by rewrite insert_by_perm. }
  constructor; simpl; try done.
  - rewrite Hperm. by apply NoDup_cons.
  - intros x. rewrite Hperm. intros [->|Hx]%elem_of_cons; auto.
  - intros x Hx. rewrite Hperm.
    destruct (books_have_documents0 x Hx) as [Hd|Hpend].
    + left. by right.
    + destruct (Hp x Hpend) as [->|?]; [left; left|by right].
Qed.

Lemma update_fts_consistent pending tg ex so id d d' i :
  consistent pending d →
  Sql.update_fts tg ex so id d = inr (d', i) →
  consistent pending d' ∧ books d' = books d ∧ files d' = files d.
Proof.
  intros [] [= <- _]. split; [|done].
  assert (Hids : docid <$> ((λ r, if decide (docid r = id)
                  then mkFtsRow (docid r) (fts_author r) (fts_series r)
                         (fts_title r) ex tg (fts_filename r) so
                  else r) <$> books_fts d) = docid <$> books_fts d).
  { rewrite <- list_fmap_compose. apply list_fmap_ext. intros j r _. simpl.
    by destruct (decide _). }
  constructor; simpl; try done; by rewrite Hids.
Qed.

Lemma empty_DB_consistent : consistent [] empty_DB.
Proof.
  constructor; simpl; try done; try apply NoDup_nil_2;
    try apply SSorted_nil; by intros ? ?%elem_of_nil.
Qed.

(** ** What a transaction sees stays consistent *)

Lemma in_tx_inner P w w' : inner w' = inner w → in_tx P w → in_tx P w'.
Proof.
  unfold inner, in_tx. intros [= _ Ht _] H d Hd. apply H. congruence.
Qed.

Lemma in_tx_weaken (P Q : DB → Prop) w :
  (∀ d, P d → Q d) → in_tx P w → in_tx Q w.
Proof. unfold in_tx. eauto. Qed.

Lemma tx_Exec_in_tx (P : DB → Prop) (Q : Z → DB → Prop) stmt w :
  in_tx P w →
  (∀ d d' id, P d → stmt d = inr (d', id) → Q id d') →
  match (tx_Exec stmt w).1 with
  | inr id => in_tx (Q id) (tx_Exec stmt w).2
  | inl _ => True
  end.
Proof.
  intros HP Hstmt. unfold tx_Exec. destruct (tx w) as [d|] eqn:Ht; [|done].
  rewrite consult_run. destruct (failed _); [done|].
  destruct (stmt d) as [e|[d' id]] eqn:E; [done|]. simpl.
  intros d'' [= <-]. eapply Hstmt; [|done]. by apply HP.
Qed.

Lemma for_range_in_tx {A} (P : DB → Prop) (body : A → M (option error)) l w :
  (∀ x w, in_tx P w → (body x w).1 = None → in_tx P (body x w).2) →
  in_tx P w →
  (for_range body l w).1 = None →
  in_tx P (for_range body l w).2.
Proof.
  intros Hbody. revert w. induction l as [|x l IH]; intros w HP; [done|].
  simpl. rewrite bind_run.
  specialize (Hbody x w HP).
  destruct (body x w) as [[e|] w1]; simpl in *; [done|].
  intros H. apply IH; [by apply Hbody|done].
Qed.

Lemma tx_QueryRow_Scan_inr {R} (q : DB → list R) w x :
  (tx_QueryRow_Scan q w).1 = inr x → ∃ d, tx w = Some d ∧ x ∈ q d.
Proof.
  unfold tx_QueryRow_Scan. rewrite bind_run.
  destruct (tx_Query q w) as [[e|rows] w1] eqn:E; simpl; [done|].
  apply tx_Query_inr in E as (d & n & Hd & Hrows).
  destruct (delivered rows) as [|y ys] eqn:Ey; simpl.
  - by destruct (rows_Err rows).
  - intros [= <-]. exists d. split; [done|].
    eapply elem_of_sublist; [|apply (sublist_take _ n)].
    rewrite <- Hrows. left.
Qed.

Lemma keeps_inner_tx_QueryRow_Scan {R} (q : DB → list R) :
  keeps inner (tx_QueryRow_Scan q).
Proof. unfold tx_QueryRow_Scan. keeps. Qed.

(** A name is inserted, when it is not there, and linked to its owner:
    the common course of insertAuthor and insertTag. *)
Lemma upsert_in_tx (P : DB → Prop) (ids : DB → list Z)
    (select : DB → list Z) (insert : DB → error + DB * Z) w :
  (∀ d x, x ∈ select d → x ∈ ids d) →
  (∀ d d' id, P d → insert d = inr (d', id) → P d' ∧ id ∈ ids d') →
  in_tx P w →
  ∀ (after : Z → M (option error)),
    (∀ x w', in_tx (λ d, P d ∧ x ∈ ids d) w' →
             (after x w').1 = None → in_tx P (after x w').2) →
    let m :=
      r ← tx_QueryRow_Scan select;
      r ← match r with
          | inl ErrNoRows => tx_Exec insert
          | inl err => mret (inl err)
          | inr x => mret (inr x)
          end;
      match r with
      | inl err => mret (Some err)
      | inr x => after x
      end in
    (m w).1 = None → in_tx P (m w).2.
Proof.
  intros Hsel Hins HP after Hafter m. subst m. rewrite bind_run.
  pose proof (keeps_inner_tx_QueryRow_Scan select w) as Hk.
  pose proof (tx_QueryRow_Scan_inr select w) as Hx.
  destruct (tx_QueryRow_Scan select w) as [[e|x] w1]; simpl in *.
  - assert (HP1 : in_tx P w1) by by eapply in_tx_inner.
    destruct e; simpl; try done.
    rewrite bind_run.
    pose proof (tx_Exec_in_tx P (λ id d, P d ∧ id ∈ ids d) insert w1 HP1) as HE.
    destruct (tx_Exec insert w1) as [[e|id] w2]; simpl in *; [done|].
    apply Hafter, HE. intros d d' i Hd Hi. by eapply Hins.
  - apply Hafter. destruct (Hx x eq_refl) as (d & Hd & Hin).
    intros d' Hd'. unfold inner in Hk. injection Hk as _ Ht _.
    assert (d' = d) as -> by congruence. split; [by apply HP|by apply Hsel].
Qed.

Lemma select_id_by_name_ids n table x :
  x ∈ Sql.select_id_by_name n table → x ∈ name_id <$> table.
Proof.
  unfold Sql.select_id_by_name.
  intros (r & -> & [_ Hr]%list_elem_of_filter)%list_elem_of_fmap.
  by apply list_elem_of_fmap_2.
Qed.

(** insertAuthor keeps what the transaction sees consistent, and leaves
    [books] and [files] as they are. *)
Lemma insertAuthor_in_tx pending (R : list BookRow → list FileRow → Prop)
    author book w :
  let P d := consistent pending d ∧ Id book ∈ book_id <$> books d ∧
             R (books d) (files d) in
  in_tx P w →
  (insertAuthor author book w).1 = None →
  in_tx P (insertAuthor author book w).2.
Proof.
  intros P HP. unfold insertAuthor.
  apply (upsert_in_tx P (λ d, name_id <$> authors d)); [| |done|].
  - intros d x. apply select_id_by_name_ids.
  - intros d d' id (Hc & Hb & HR) Hi.
    destruct (insert_author_consistent _ _ _ _ _ Hc Hi) as (? & ? & Hbs & Hfs).
    unfold P. by rewrite Hbs, Hfs.
  - intros x w' HP' . rewrite bind_run.
    pose proof (tx_Exec_in_tx _ (λ _, P)
                  (Sql.insert_or_ignore_books_authors (Id book) x) w' HP') as HE.
    destruct (tx_Exec _ w') as [[e|id] w2]; simpl in *; [done|].
    intros _. apply HE. intros d d' i [(Hc & Hb & HR) Hx] Hi.
    destruct (insert_books_authors_consistent _ _ _ _ _ _ Hc Hb Hx Hi)
      as (? & Hbs & Hfs).
    unfold P. by rewrite Hbs, Hfs.
Qed.

(** insertTag does the same. *)
Lemma insertTag_in_tx pending (R : list BookRow → list FileRow → Prop)
    tag bf w :
  let P d := consistent pending d ∧ FileId bf ∈ file_id <$> files d ∧
             R (books d) (files d) in
  in_tx P w →
  (insertTag tag bf w).1 = None →
  in_tx P (insertTag tag bf w).2.
Proof.
  intros P HP. unfold insertTag.
  apply (upsert_in_tx P (λ d, name_id <$> tags d)); [| |done|].
  - intros d x. apply select_id_by_name_ids.
  - intros d d' id (Hc & Hb & HR) Hi.
    destruct (insert_tag_consistent _ _ _ _ _ Hc Hi) as (? & ? & Hbs & Hfs).
    unfold P. by rewrite Hbs, Hfs.
  - intros x w' HP' . rewrite bind_run.
    pose proof (tx_Exec_in_tx _ (λ _, P)
                  (Sql.insert_or_ignore_files_tags (FileId bf) x) w' HP') as HE.
    destruct (tx_Exec _ w') as [[e|id] w2]; simpl in *; [done|].
    intros _. apply HE. intros d d' i [(Hc & Hb & HR) Hx] Hi.
    destruct (insert_files_tags_consistent _ _ _ _ _ _ Hc Hb Hx Hi)
      as (? & Hbs & Hfs).
    unfold P. by rewrite Hbs, Hfs.
Qed.

(** When indexBookInSearch reports no error, the book of the document
    is no longer pending; [books] and [files] are as they were. *)
Lemma indexBookInSearch_in_tx (R : list BookRow → list FileRow → Prop)
    book (found : bool) w :
  in_tx (λ d, consistent (if found then [] else [Id book]) d ∧
              Id book ∈ book_id <$> books d ∧ R (books d) (files d)) w →
  (indexBookInSearch book (negb found) w).1 = None →
  in_tx (λ d, consistent [] d ∧ R (books d) (files d))
    (indexBookInSearch book (negb found) w).2.
Proof.
  intros HP. unfold indexBookInSearch.
  destruct (Files book) as [|bf [|]]; [done| |done].
  destruct found; simpl.
  - rewrite bind_run.
    pose proof (keeps_inner_tx_Query (Sql.select_fts_by_docid (Id book)) w)
      as Hk.
    destruct (tx_Query _ w) as [[e|rows] w1]; simpl in *; [done|].
    assert (HP1 : in_tx (λ d, consistent [] d ∧ R (books d) (files d)) w1).
    { eapply in_tx_inner; [done|]. eapply in_tx_weaken; [|exact HP].
      by intros d (Hc & _ & HR). }
    destruct (delivered rows) as [|[[[id tags] ext] src] rest].
    + by destruct (rows_Err rows).
    + rewrite bind_run.
      pose proof (tx_Exec_in_tx _
                    (λ _ d, consistent [] d ∧ R (books d) (files d))
                    (Sql.update_fts (tags +:+ " " +:+ Join (Tags bf) " ")
                       (ext +:+ " " +:+ Extension bf)
                       (src +:+ " " +:+ Source bf) id) w1 HP1) as HE.
      destruct (tx_Exec _ w1) as [[e|i] w2]; simpl in *; [done|].
      intros _. apply HE. intros d d' j [Hc HR] Hj.
      destruct (update_fts_consistent _ _ _ _ _ _ _ _ Hc Hj) as (? & Hbs & Hfs).
      by rewrite Hbs, Hfs.
  - rewrite bind_run.
    pose proof (tx_Exec_in_tx _
                  (λ _ d, consistent [] d ∧ R (books d) (files d))
                  (Sql.insert_fts (Id book) (Join (Authors book) " & ")
                     (Series book) (Title book) (Extension bf)
                     (Join (Tags bf) " ") (Source bf)) w HP) as HE.
    destruct (tx_Exec _ w) as [[e|i] w2]; simpl in *; [done|].
    intros _. apply HE. intros d d' j (Hc & Hb & HR) Hj.
    assert (Hp : ∀ x, x ∈ [Id book] → x = Id book ∨ x ∈ @nil Z).
    { intros x ->%list_elem_of_singleton. by left. }
    destruct (insert_fts_consistent _ _ _ _ _ _ _ _ _ _ _ _ Hc Hb Hp Hj)
      as (? & Hbs & Hfs).
    by rewrite Hbs, Hfs.
Qed.

(** ** What insertAuthor and insertTag leave behind *)

Lemma tx_Exec_inr stmt w id :
  (tx_Exec stmt w).1 = inr id →
  ∃ d d', tx w = Some d ∧ stmt d = inr (d', id) ∧
          tx (tx_Exec stmt w).2 = Some d'.
Proof.
  unfold tx_Exec. destruct (tx w) as [d|] eqn:Ht; [|done].
  rewrite consult_run. destruct (failed _); [done|].
  destruct (stmt d) as [e|[d' i]] eqn:E; [done|]. simpl. intros [= ->].
  by exists d, d'.
Qed.

(** The common course of insertAuthor and insertTag, when no error is
    reported: the id [x] that was selected, or that of the row that was
    inserted, satisfies [Q], and the tables after the link satisfy
    [R]. *)
Lemma upsert_post (Q : Z → DB → Prop) (R : DB → Prop)
    (select : DB → list Z) (insert : DB → error + DB * Z)
    (link : Z → DB → error + DB * Z) w :
  (∀ d x, x ∈ select d → Q x d) →
  (∀ d d' id, insert d = inr (d', id) → Q id d') →
  (∀ x d d' i, Q x d → link x d = inr (d', i) → R d') →
  let m : M (option error) :=
    r ← tx_QueryRow_Scan select;
    r ← match r with
        | inl ErrNoRows => tx_Exec insert
        | inl err => mret (inl err)
        | inr x => mret (inr x)
        end;
    match r with
    | inl err => mret (Some err)
    | inr x =>
        res ← tx_Exec (link x);
        match res with
        | inl err => mret (Some err)
        | inr _ => mret None
        end
    end in
  (m w).1 = None → ∃ d', tx (m w).2 = Some d' ∧ R d'.
Proof.
  intros Hsel Hins Hlink m. subst m. rewrite bind_run.
  pose proof (keeps_inner_tx_QueryRow_Scan select w) as Hk.
  pose proof (tx_QueryRow_Scan_inr select w) as Hx.
  assert (Hafter : ∀ x w', in_tx (Q x) w' →
            let m' : M (option error) :=
              res ← tx_Exec (link x);
              match res with
              | inl err => mret (Some err)
              | inr _ => mret None
              end in
            (m' w').1 = None → ∃ d', tx (m' w').2 = Some d' ∧ R d').
  { intros x w' HQ m'. subst m'. rewrite bind_run.
    pose proof (tx_Exec_inr (link x) w') as HE.
    destruct (tx_Exec (link x) w') as [[e|i] w2]; simpl in *; [done|].
    intros _. destruct (HE i eq_refl) as (d & d' & Hd & Hl & Hd').
    exists d'. split; [done|]. eapply Hlink; [|done]. by apply HQ. }
  destruct (tx_QueryRow_Scan select w) as [[e|x] w1]; simpl in *.
  - destruct e; simpl; try done.
    rewrite bind_run.
    pose proof (tx_Exec_inr insert w1) as HE.
    destruct (tx_Exec insert w1) as [[e|id] w2]; simpl in *; [done|].
    apply Hafter. destruct (HE id eq_refl) as (d & d' & Hd & Hi & Hd').
    intros d'' Hd''. assert (d'' = d') as -> by congruence. by eapply Hins.
  - apply Hafter. destruct (Hx x eq_refl) as (d & Hd & Hin).
    intros d' Hd'. unfold inner in Hk. injection Hk as _ Ht _.
    assert (d' = d) as -> by congruence. by apply Hsel.
Qed.

Lemma select_id_by_name_row n table x :
  x ∈ Sql.select_id_by_name n table →
  ∃ a, a ∈ table ∧ name a = n ∧ name_id a = x.
Proof.
  unfold Sql.select_id_by_name.
  intros (r & -> & [? Hr]%list_elem_of_filter)%list_elem_of_fmap.
  by exists r.
Qed.

Lemma insert_name_row what n table table' id :
  Sql.insert_name what n table = inr (table', id) →
  ∃ a, a ∈ table' ∧ name a = n ∧ name_id a = id.
Proof.
  unfold Sql.insert_name. destruct (decide _); [done|]. intros [= <- <-].
  eexists. split; [apply elem_of_app; right; left|done].
Qed.

Lemma insert_or_ignore_link_linked owner member table :
  Exists (λ l, owner_id l = owner ∧ member_id l = member)
    (Sql.insert_or_ignore_link owner member table).
Proof.
  unfold Sql.insert_or_ignore_link. destruct (decide _) as [|_]; [done|].
  apply Exists_app. right. by left.
Qed.

(** X27. When insertAuthor reports no error, the transaction is open and
    sees an author of that name linked to the book, whatever the store
    does. *)
Theorem insertAuthor_links author book w :
  (insertAuthor author book w).1 = None →
  ∃ d a, tx (insertAuthor author book w).2 = Some d ∧
         a ∈ authors d ∧ name a = author ∧
         Exists (λ l, owner_id l = Id book ∧ member_id l = name_id a)
           (books_authors d).
Proof.
  intros H.
  destruct (upsert_post
              (λ x d, ∃ a, a ∈ authors d ∧ name a = author ∧ name_id a = x)
              (λ d, ∃ a, a ∈ authors d ∧ name a = author ∧
                         Exists (λ l, owner_id l = Id book ∧
                                      member_id l = name_id a)
                           (books_authors d))
              (λ d, Sql.select_id_by_name author (authors d))
              (Sql.insert_author author)
              (Sql.insert_or_ignore_books_authors (Id book)) w)
    as (d & Hd & a & Ha); [| | |exact H|by exists d, a].
  - intros d x. apply select_id_by_name_row.
  - intros d d' id. unfold Sql.insert_author.
    destruct (Sql.insert_name _ _ _) as [e|[t i]] eqn:E; [done|].
    intros [= <- <-]. by apply insert_name_row in E.
  - intros x d d' i (a & Ha & Hn & <-) [= <- _]. exists a. simpl.
    split; [done|]. split; [done|]. apply insert_or_ignore_link_linked.
Qed.

(** X28. When insertTag reports no error, the transaction is open and
    sees a tag of that name linked to the file, whatever the store
    does. *)
Theorem insertTag_links tag bf w :
  (insertTag tag bf w).1 = None →
  ∃ d a, tx (insertTag tag bf w).2 = Some d ∧
         a ∈ tags d ∧ name a = tag ∧
         Exists (λ l, owner_id l = FileId bf ∧ member_id l = name_id a)
           (files_tags d).
Proof.
  intros H.
  destruct (upsert_post
              (λ x d, ∃ a, a ∈ tags d ∧ name a = tag ∧ name_id a = x)
              (λ d, ∃ a, a ∈ tags d ∧ name a = tag ∧
                         Exists (λ l, owner_id l = FileId bf ∧
                                      member_id l = name_id a)
                           (files_tags d))
              (λ d, Sql.select_id_by_name tag (tags d))
              (Sql.insert_tag tag)
              (Sql.insert_or_ignore_files_tags (FileId bf)) w)
    as (d & Hd & a & Ha); [| | |exact H|by exists d, a].
  - intros d x. apply select_id_by_name_row.
  - intros d d' id. unfold Sql.insert_tag.
    destruct (Sql.insert_name _ _ _) as [e|[t i]] eqn:E; [done|].
    intros [= <- <-]. by apply insert_name_row in E.
  - intros x d d' i (a & Ha & Hn & <-) [= <- _]. exists a. simpl.
    split; [done|]. split; [done|]. apply insert_or_ignore_link_linked.
Qed.

Section More.

Context {rt : Runtime}.

Lemma keeps_inner_getFilesByBookIds ids : keeps inner (getFilesByBookIds ids).
Proof. unfold getFilesByBookIds. keeps. Qed.

(** How GetBooksById leaves the world: the disk and the committed tables
    are the ones from before. *)
Lemma GetBooksById_outside ids w :
  outside (GetBooksById ids w).2 = outside w.
Proof.
  unfold GetBooksById. destruct (len ids =? 0); [done|].
  rewrite bind_run.
  destruct (Begin_cases w) as [[e ->]| ->]; simpl; [done|].
  set (w1 := set_tx (Some (store w)) (tick w)).
  assert (H1 : inner w1 = (store w, Some (store w), disk w)) by done.
  rewrite bind_run.
  pose proof (keeps_inner_tx_Query (Sql.select_books_by_ids ids) w1) as H2.
  destruct (tx_Query _ w1) as [[e|rows] w2]; simpl in *.
  { unfold inner, outside in *. congruence. }
  destruct (rows_Err rows); simpl.
  { unfold inner, outside in *. simpl. congruence. }
  rewrite bind_run.
  pose proof (keeps_inner_getAuthorsByBookIds ids w2) as H3.
  destruct (getAuthorsByBookIds ids w2) as [[am [e|]] w3]; simpl in *.
  { unfold inner, outside in *. simpl. congruence. }
  rewrite bind_run.
  pose proof (keeps_inner_getFilesByBookIds ids w3) as H4.
  destruct (getFilesByBookIds ids w3) as [[fm [e|]] w4]; simpl in *.
  { unfold inner, outside in *. simpl. congruence. }
  rewrite bind_run.
  assert (H5 : inner w4 = (store w, Some (store w), disk w)) by congruence.
  unfold inner in H5. injection H5 as Hs Ht Hd.
  destruct (Commit_ends _ _ Ht) as (_ & Hd' & Hs').
  destruct (Commit w4) as [[e|] w5]; simpl in *; unfold outside;
    f_equal; try congruence; by destruct Hs'; congruence.
Qed.

(** X10. Searching and hydrating change neither the committed tables nor
    the disk, whatever the store does in between. *)
Theorem search_changes_nothing terms offset limit cap ids w :
  outside (GetBooksById ids w).2 = outside w ∧
  outside (SearchPaged terms offset limit cap w).2 = outside w ∧
  outside (Search terms w).2 = outside w.
Proof.
  assert (Hpaged : ∀ o l c, outside (SearchPaged terms o l c w).2 = outside w).
  { intros o l c. unfold SearchPaged. rewrite bind_run.
    assert (Hq : ∀ q : DB → list Z, outside (lib_Query q w).2 = outside w).
    { intros q. unfold lib_Query. by rewrite consult_run. }
    set (m := if l =? 0 then _ else _).
    assert (Hm : outside (m w).2 = outside w) by (unfold m; by destruct (l =? 0)).
    destruct (m w) as [[e|rows] w1]; simpl in *; [done|].
    destruct (rows_Err rows); simpl; [done|].
    destruct (_ && _); rewrite bind_run;
      match goal with
      | |- context [GetBooksById ?i w1] =>
          pose proof (GetBooksById_outside i w1) as Hg;
          destruct (GetBooksById i w1) as [[books err] w2]
      end; simpl in *; congruence. }
  split; [apply GetBooksById_outside|]. split; [apply Hpaged|].
  unfold Search. rewrite bind_run.
  specialize (Hpaged 0 0 0).
  by destruct (SearchPaged terms 0 0 0 w) as [[[books more] err] w'].
Qed.

(** X9. GetBooksById returns at most as many books as it is given
    ids, whatever the store does, when no two rows of [books] share an
    id. *)
Theorem GetBooksById_at_most_ids ids w :
  NoDup (book_id <$> books (store w)) →
  (length (GetBooksById ids w).1.1 ≤ length ids)%nat.
Proof. apply GetBooksById_length. Qed.

(** X11. Ids that no book has give no books and no error. *)
Theorem GetBooksById_unknown_ids ids w :
  calm w →
  (∀ id, id ∈ ids → id ∉ book_id <$> books (store w)) →
  (GetBooksById ids w).1 = ([], None).
Proof.
  intros Hc Hno. destruct (GetBooksById_calm ids w Hc) as (fm & w' & -> & _).
  simpl. unfold Sql.select_books_by_ids.
  replace (filter (λ r, book_id r ∈ ids) (books (store w))) with (@nil BookRow);
    [done|].
  symmetry. induction (books (store w)) as [|r l IH]; [done|].
  rewrite filter_cons. destruct (decide (book_id r ∈ ids)) as [Hin|_].
  - exfalso. apply (Hno _ Hin). rewrite fmap_cons. left.
  - apply IH. intros id Hid Hl. apply (Hno id Hid). rewrite fmap_cons.
    by right.
Qed.

(** X12. When the rows of the query on [books] stop with a failure,
    GetBooksById rolls back and returns no books and no error: the
    error it wraps is the nil of the query. *)
Theorem GetBooksById_row_failure_swallowed ids w n p :
  ids ≠ [] →
  plan w = Succeeds :: FailsAfter n :: p →
  GetBooksById ids w
  = (([], None), set_tx None (set_plan p w)).
Proof.
  intros Hids Hp. unfold GetBooksById.
  destruct (len ids =? 0) eqn:E; [by apply len_nil_iff in E|].
  destruct w as [st t dk pl]. simpl in Hp. subst pl. done.
Qed.

(** X13. When the query on [books] is refused, GetBooksById returns the
    error, wrapped, and leaves the transaction it began open. *)
Theorem GetBooksById_refused_query ids w p :
  ids ≠ [] →
  plan w = Succeeds :: Fails :: p →
  GetBooksById ids w
  = (([], Some (Wrapped (ErrDriver "query")
                  "fetching books from database by ID")),
     set_tx (Some (store w)) (set_plan p w)).
Proof.
  intros Hids Hp. unfold GetBooksById.
  destruct (len ids =? 0) eqn:E; [by apply len_nil_iff in E|].
  destruct w as [st t dk pl]. simpl in Hp. subst pl. done.
Qed.

(** X14. A search whose query is refused, or whose rows stop with a
    failure, returns no books, zero for moreResults and the error,
    wrapped; nothing more is asked of the store. *)
Theorem SearchPaged_failed_query terms offset limit cap w o p :
  plan w = o :: p →
  o ≠ Succeeds →
  SearchPaged terms offset limit cap w
  = (([], 0,
      Some (match o with
            | FailsAfter _ =>
                Wrapped (ErrDriver "rows") "Retrieving search results from db"
            | _ => Wrapped (ErrDriver "query") "Querying db for search terms"
            end)),
     set_plan p w).
Proof.
  intros Hp Ho. unfold SearchPaged. rewrite bind_run.
  destruct w as [st t dk pl]. simpl in Hp. subst pl.
  by destruct (limit =? 0), o.
Qed.

(** The files that getFilesById returns when nothing fails: the rows of
    [files] with an id of [ids], each with the tags grouped under it. *)
Lemma getFilesById_quiet_rows ids d w :
  quiet d w →
  ∃ w', getFilesById ids w
        = ((scan_file
              (foldl (λ m '(k, v), map_append m k v) ∅
                 (Sql.select_tags_of_files ids d))
            <$> Sql.select_files_by_ids ids d, None), w') ∧
        quiet d w'.
Proof.
  intros Hq. unfold getFilesById.
  destruct (len ids =? 0) eqn:E.
  - apply len_nil_iff in E as ->. exists w. split; [|done].
    unfold Sql.select_files_by_ids. by rewrite filter_elem_of_nil.
  - rewrite bind_run.
    destruct (getTagsByFileIds_quiet ids d w Hq) as (w1 & -> & Hq1 & Hs1).
    simpl. rewrite bind_run, (tx_Query_quiet _ d w1 Hq1). simpl.
    eexists. split; [done|]. by apply quiet_tick.
Qed.

(** X15. When nothing fails, GetFilesById returns, without an error, the
    rows of [files] that have one of the ids, each once and with its
    columns, and lists the tags of every file in the order of the ids of
    its rows in [files_tags]. *)
Theorem GetFilesById_rows ids w :
  calm w →
  (GetFilesById ids w).1.2 = None ∧
  (λ bf, mkFileRow (FileId bf) 0 (Extension bf) (OriginalFilename bf)
           (CurrentFilename bf) (FileSize bf) (FileMtime bf) (Hash bf)
           (RegexpName bf) (Source bf))
    <$> (GetFilesById ids w).1.1
  = (λ r, mkFileRow (file_id r) 0 (file_extension r)
            (file_original_filename r) (file_filename r) (file_size r)
            (file_mtime r) (file_hash r) (file_regexp_name r) (file_source r))
    <$> filter (λ r, file_id r ∈ ids) (files (store w)) ∧
  tags_in_order (store w) (GetFilesById ids w).1.1.
Proof.
  intros Hc. unfold GetFilesById.
  destruct (len ids =? 0) eqn:E.
  - apply len_nil_iff in E as ->. simpl. rewrite filter_elem_of_nil.
    split; [done|]. split; [done|]. by intros bf ?%elem_of_nil.
  - rewrite bind_run, (Begin_calm w Hc). simpl.
    assert (Hq : quiet (store w) (set_tx (Some (store w)) (tick w))).
    { split; [|done]. by apply calm_tick in Hc as [_ ?]. }
    rewrite bind_run.
    destruct (getFilesById_quiet_rows ids _ _ Hq) as (w1 & -> & Hq1).
    simpl. rewrite bind_run. destruct (Commit w1) as [e w2]. simpl.
    split; [done|]. split.
    + rewrite <- list_fmap_compose. by apply list_fmap_ext.
    + intros bf (r & -> & Hr)%list_elem_of_fmap. simpl.
      apply names_of_owner_in_order.
      by apply list_elem_of_filter in Hr as [? _].
Qed.

(** X16. GetFilesById changes neither the committed tables nor the
    disk, and leaves no transaction open, whatever the store does. *)
Theorem GetFilesById_changes_nothing ids w :
  tx w = None →
  outside (GetFilesById ids w).2 = outside w ∧ tx (GetFilesById ids w).2 = None.
Proof.
  intros Hno. unfold GetFilesById. destruct (len ids =? 0); [done|].
  rewrite bind_run.
  destruct (Begin_cases w) as [[e ->]| ->]; simpl; [done|].
  rewrite bind_run.
  pose proof (keeps_inner_getFilesById ids (set_tx (Some (store w)) (tick w)))
    as H1.
  destruct (getFilesById ids _) as [[fs [e|]] w2]; simpl in *;
    unfold inner in H1; simpl in H1; injection H1 as Hs Ht Hd.
  { unfold outside. simpl. split; [congruence|done]. }
  rewrite bind_run.
  destruct (Commit_ends _ _ Ht) as (Htx & Hd' & Hs').
  destruct (Commit w2) as [e w3]. simpl in *. split; [|done].
  unfold outside. f_equal; [|congruence]. destruct Hs'; congruence.
Qed.



(** X6. The closure [authorsEqual] of getBookIdByTitleAndAuthors answers
    true exactly for equal lists. *)
Theorem authorsEqual_decides_equality a b : authorsEqual a b = true ↔ a = b.
Proof. apply authorsEqual_eq. Qed.

(** X29. When nothing fails, moveOrCopyFile puts the file of the book
    under its current name below the books root, with the bytes and the
    modification time of the original, which is a file under another
    name, and takes the original away when it moves. *)
Theorem moveOrCopyFile_places lib book bf move w data :
  calm w →
  Files book = [bf] →
  OriginalFilename bf ≠ path_Join (booksRoot lib) (CurrentFilename bf) →
  disk w !! OriginalFilename bf = Some data →
  (moveOrCopyFile lib book move w).1 = None ∧
  disk (moveOrCopyFile lib book move w).2
  = <[path_Join (booksRoot lib) (CurrentFilename bf) := data]>
      (if move then delete (OriginalFilename bf) (disk w) else disk w).
Proof.
  intros Hc HF _ Hsrc. unfold moveOrCopyFile, MkdirAll, os_call. rewrite HF.
  calm_step. destruct move.
  - unfold moveFile, Rename. calm_step. by rewrite Hsrc.
  - by destruct (copyFile_calm (OriginalFilename bf)
                   (path_Join (booksRoot lib) (CurrentFilename bf))
                   (tick w) data) as (-> & _ & -> & _).
Qed.

(** ** ImportBook keeps the tables consistent *)

Lemma keeps_inner_getBookIdByTitleAndAuthors title authors :
  keeps inner (getBookIdByTitleAndAuthors title authors).
Proof. unfold getBookIdByTitleAndAuthors. keeps. Qed.

(** What the resolver finds is the id of a book, whatever the store
    does. *)
Lemma getBookIdByTitleAndAuthors_book title authors w id err :
  (getBookIdByTitleAndAuthors title authors w).1 = (id, true, err) →
  ∃ d, tx w = Some d ∧ id ∈ book_id <$> books d.
Proof.
  unfold getBookIdByTitleAndAuthors. rewrite bind_run.
  pose proof (keeps_inner_tx_Query (Sql.select_book_ids_by_title title) w) as Hk.
  destruct (tx_Query _ w) as [[e|rows] w1] eqn:EQ; simpl in *; [done|].
  apply tx_Query_inr in EQ as (d & n & Hd & Hrows).
  rewrite bind_run. unfold getAuthorsByBookIds.
  assert (Hfind : ∀ (rows' : list (Z * string)) names,
    (∀ k, k ∈ rows'.*1 → k ∈ delivered rows) →
    List.find (λ '(_, authorNames), authorsEqual authors authorNames)
      (range_order _ (foldl (λ m '(k, v), map_append m k v) ∅ rows'))
    = Some (id, names) →
    id ∈ book_id <$> books d).
  { intros rows' names Hsub [Hin _]%find_some.
    apply list_elem_of_In in Hin. rewrite range_order_perm in Hin.
    apply elem_of_map_to_list, group_lookup_Some in Hin as [_ Hk'].
    apply Hsub in Hk'. rewrite Hrows in Hk'.
    eapply elem_of_sublist in Hk'; [|apply (sublist_take _ n)].
    unfold Sql.select_book_ids_by_title in Hk'.
    apply list_elem_of_fmap in Hk' as (r & -> & [_ Hr]%list_elem_of_filter).
    by apply list_elem_of_fmap_2. }
  destruct (len (delivered rows) =? 0); simpl.
  - destruct (List.find _ _) as [[bookId names]|] eqn:E; [|done].
    intros [= -> _]. exists d. split; [done|].
    by apply (Hfind [] names); [intros k ?%elem_of_nil|].
  - rewrite bind_run.
    pose proof (keeps_inner_tx_Query
                  (Sql.select_authors_of_books (delivered rows)) w1) as Hk1.
    destruct (tx_Query _ w1) as [[e|rows'] w2] eqn:EQ'; simpl in *; [done|].
    apply tx_Query_inr in EQ' as (d' & n' & Hd' & Hrows').
    destruct (List.find _ _) as [[bookId names]|] eqn:E; [|done].
    intros [= -> _]. exists d. split; [done|].
    apply (Hfind (delivered rows') names); [|done].
    intros k Hk'. rewrite Hrows', fmap_take in Hk'.
    eapply elem_of_sublist in Hk'; [|apply (sublist_take _ n')].
    by apply select_names_of_owners_owner in Hk'.
Qed.

(** The book that the file is attached to: found, or inserted with its
    authors; a new book waits for its document. *)
Lemma ImportBook_book_in_tx book existingBookId (found : bool) w :
  in_tx (consistent []) w →
  (found = true → ∃ d, tx w = Some d ∧ existingBookId ∈ book_id <$> books d) →
  let m : M (option error + Book) :=
    if negb found then
      res ← tx_Exec (Sql.insert_book (Series book) (Title book));
      match res with
      | inl err =>
          _ ← Rollback;
          mret (inl (Wrap (Some err) "Insert new book"))
      | inr id =>
          let book := set_Id id book in
          r ← for_range (λ author, insertAuthor author book) (Authors book);
          match r with
          | Some (author, err) =>
              _ ← Rollback;
              mret (inl (Wrap (Some err) ("inserting author " +:+ author)))
          | None => mret (inr book)
          end
      end
    else mret (inr (set_Id existingBookId book)) in
  ∀ book', (m w).1 = inr book' →
  Files book' = Files book ∧
  in_tx (λ d, consistent (if found then [] else [Id book']) d ∧
              Id book' ∈ book_id <$> books d) (m w).2.
Proof.
  intros HP Hfound m book'. subst m. destruct found; simpl.
  - intros [= <-]. split; [done|].
    destruct (Hfound eq_refl) as (d & Hd & Hin).
    intros d' Hd'. assert (d' = d) as -> by congruence.
    split; [by apply HP|done].
  - rewrite bind_run.
    pose proof (tx_Exec_in_tx _
                  (λ id d, consistent [id] d ∧ id ∈ book_id <$> books d ∧ True)
                  (Sql.insert_book (Series book) (Title book)) w HP) as HE.
    destruct (tx_Exec _ w) as [[e|id] w1]; simpl in *; [done|].
    rewrite bind_run.
    assert (H1 : in_tx (λ d, consistent [id] d ∧ id ∈ book_id <$> books d ∧
                             True) w1).
    { apply HE. intros d d' i Hc Hi.
      by destruct (insert_book_consistent _ _ _ _ _ _ Hc Hi) as (? & ? & _). }
    pose proof (for_range_in_tx _
                  (λ author, insertAuthor author (set_Id id book))
                  (Authors (set_Id id book)) w1
                  (λ x w', insertAuthor_in_tx [id] (λ _ _, True) x
                             (set_Id id book) w') H1) as HF.
    destruct (for_range _ _ w1) as [[[author e]|] w2]; simpl in *; [done|].
    intros [= <-]. split; [done|].
    eapply in_tx_weaken; [|by apply HF]. by intros d (? & ? & _).
Qed.

(** Where ImportBook goes on to place the file, what its transaction
    sees is consistent and has the hash of the file. *)
Lemma ImportBook_store_in_tx book w book' :
  consistent [] (store w) →
  (ImportBook_store book w).1 = inr book' →
  in_tx (λ d, consistent [] d ∧
              ∀ bf, bf ∈ Files book → Hash bf ∈ file_hash <$> files d)
    (ImportBook_store book w).2.
Proof.
  intros Hc. unfold ImportBook_store.
  destruct (Files book) as [|bf [|]] eqn:HF; [done| |done].
  rewrite bind_run.
  destruct (Begin_cases w) as [[e ->]| ->]; simpl; [done|].
  assert (H0 : in_tx (consistent []) (set_tx (Some (store w)) (tick w))).
  { by intros d [= <-]. }
  revert H0. generalize (set_tx (Some (store w)) (tick w)). clear w Hc.
  intros w H0. rewrite bind_run.
  pose proof (keeps_inner_tx_Query (Sql.select_file_ids_by_hash (Hash bf)) w)
    as Hk.
  destruct (tx_Query _ w) as [[e|rows] w1]; simpl in *; [done|].
  apply (in_tx_inner _ _ _ Hk) in H0. clear Hk.
  destruct (delivered rows); [|done].
  destruct (rows_Err rows); [done|].
  rewrite bind_run.
  pose proof (keeps_inner_getBookIdByTitleAndAuthors (Title book)
                (Authors book) w1) as Hk.
  pose proof (getBookIdByTitleAndAuthors_book (Title book) (Authors book) w1)
    as Hfound.
  destruct (getBookIdByTitleAndAuthors _ _ w1)
    as [[[existingBookId found] err] w2]; simpl in *.
  destruct err; [done|].
  apply (in_tx_inner _ _ _ Hk) in H0.
  rewrite bind_run.
  assert (Hf : found = true →
               ∃ d, tx w2 = Some d ∧ existingBookId ∈ book_id <$> books d).
  { intros ->. destruct (Hfound existingBookId None eq_refl) as (d & Hd & Hin).
    exists d. split; [|done]. unfold inner in Hk. congruence. }
  match goal with
  | |- context [(?m w2).1] =>
      pose proof (ImportBook_book_in_tx book existingBookId found w2 H0 Hf
                  : ∀ book', (m w2).1 = inr book' →
                      Files book' = Files book ∧
                      in_tx (λ d, consistent (if found then []
                                              else [Id book']) d ∧
                                  Id book' ∈ book_id <$> books d) (m w2).2)
        as Hb;
      destruct (m w2) as [[e|b] w3]; [done|]
  end.
  simpl in *. destruct (Hb b eq_refl) as [HFb H3].
  clear Hb. rewrite bind_run.
  set (R := λ (bs : list BookRow) (fs : list FileRow),
              Id b ∈ book_id <$> bs ∧ Hash bf ∈ file_hash <$> fs).
  pose proof (tx_Exec_in_tx _
                (λ id d, consistent (if found then [] else [Id b]) d ∧
                         id ∈ file_id <$> files d ∧ R (books d) (files d))
                (Sql.insert_file (Id b) bf) w3 H3) as HE.
  destruct (tx_Exec _ w3) as [[e|id] w4]; simpl in *; [done|].
  rewrite bind_run.
  assert (H4 : in_tx (λ d, consistent (if found then [] else [Id b]) d ∧
                           id ∈ file_id <$> files d ∧ R (books d) (files d))
                 w4).
  { apply HE. intros d d' i [Hc Hin] Hi.
    destruct (insert_file_consistent _ _ _ _ _ _ Hc Hin Hi)
      as (? & ? & Hbs & ?).
    unfold R. by rewrite Hbs. }
  pose proof (for_range_in_tx _
                (λ tag, insertTag tag (set_FileId id bf))
                (Tags (set_FileId id bf)) w4
                (λ x w', insertTag_in_tx (if found then [] else [Id b])
                           R x (set_FileId id bf) w') H4) as HT.
  destruct (for_range _ _ w4) as [[[tag e]|] w5]; simpl in *; [done|].
  rewrite bind_run.
  pose proof (indexBookInSearch_in_tx R b found w5) as HI.
  destruct (indexBookInSearch b (negb found) w5) as [[e|] w6]; simpl in *;
    [done|].
  intros _. eapply in_tx_weaken; [|apply HI; [|done]].
  - intros d [? [_ Hh]]. split; [done|].
    by intros bf' ->%list_elem_of_singleton.
  - eapply in_tx_weaken; [|by apply HT]. by intros d (? & _ & ? & ?).
Qed.

Lemma keeps_tx_consult : keeps tx consult.
Proof. intros w. by rewrite consult_run. Qed.

Lemma keeps_tx_moveOrCopyFile lib book move :
  keeps tx (moveOrCopyFile lib book move).
Proof.
  pose proof keeps_tx_consult.
  assert (∀ what, keeps tx (os_call what)) by (intros; unfold os_call; keeps).
  unfold moveOrCopyFile, MkdirAll, moveFile, Rename, Remove,
    copyFile, Open, Create, Copy, Chtimes.
  keeps.
Qed.

(** After ImportBook the committed tables are those of before, or those
    that its transaction saw when the file had been placed. *)
Lemma ImportBook_store_cases (P : DB → Prop) lib book move w :
  (∀ book', (ImportBook_store book w).1 = inr book' →
            in_tx P (ImportBook_store book w).2) →
  store (ImportBook lib book move w).2 = store w ∨
  (ImportBook lib book move w).1 = None ∧ P (store (ImportBook lib book move w).2).
Proof.
  intros Hs. unfold ImportBook. rewrite bind_run.
  pose proof (keeps_ImportBook_store book w) as Hk.
  destruct (ImportBook_store book w) as [[err|book'] w1]; simpl in *.
  { left. unfold outside in Hk. congruence. }
  specialize (Hs book' eq_refl).
  assert (Hst : store w1 = store w) by (unfold outside in Hk; congruence).
  rewrite bind_run.
  pose proof (keeps_moveOrCopyFile lib book' move w1) as Hk1.
  pose proof (keeps_tx_moveOrCopyFile lib book' move w1) as Hk2.
  destruct (moveOrCopyFile lib book' move w1) as [[e|] w2]; simpl in *.
  { left. congruence. }
  rewrite bind_run. unfold Commit.
  destruct (tx w2) as [d|] eqn:Ht; simpl; [|left; congruence].
  rewrite consult_run. destruct (failed _); simpl; [left; congruence|].
  right. split; [done|]. apply Hs. congruence.
Qed.

(** X23. ImportBook keeps the tables consistent, whatever the store and
    the disk do: ids, hashes and names stay unique, every link joins two
    rows that exist, both link tables stay in the order of their keys,
    and every book has exactly one search document. *)
Theorem ImportBook_keeps_consistent lib book move w :
  consistent [] (store w) →
  consistent [] (store (ImportBook lib book move w).2).
Proof.
  intros Hc.
  destruct (ImportBook_store_cases (consistent []) lib book move w)
    as [->|[_ H]]; [|done..].
  intros book' Hb.
  eapply in_tx_weaken; [|by apply (ImportBook_store_in_tx book w book')].
  by intros d [? _].
Qed.

(** X24. When ImportBook changes the committed tables, it returns nil
    and the tables hold the hash of the imported file. *)
Theorem ImportBook_records_hash lib book move w bf :
  consistent [] (store w) →
  bf ∈ Files book →
  store (ImportBook lib book move w).2 = store w ∨
  (ImportBook lib book move w).1 = None ∧
  Hash bf ∈ file_hash <$> files (store (ImportBook lib book move w).2).
Proof.
  intros Hc Hbf.
  destruct (ImportBook_store_cases
              (λ d, ∀ bf, bf ∈ Files book → Hash bf ∈ file_hash <$> files d)
              lib book move w) as [?|[? H]]; [|by left|right; eauto].
  intros book' Hb.
  eapply in_tx_weaken; [|by apply (ImportBook_store_in_tx book w book')].
  by intros d [_ ?].
Qed.

Lemma select_file_ids_by_hash_absent h d :
  h ∉ file_hash <$> files d → Sql.select_file_ids_by_hash h d = [].
Proof.
  unfold Sql.select_file_ids_by_hash. intros Hno.
  destruct (filter _ (files d)) as [|r rest] eqn:E; [done|].
  exfalso. apply Hno.
  assert (Hr : r ∈ filter (λ r, file_hash r = h) (files d)) by (rewrite E; left).
  apply list_elem_of_filter in Hr as [<- Hr]. by apply list_elem_of_fmap_2.
Qed.

(** X26. When the rows of the query for a duplicate stop with a failure,
    ImportBook of a file whose hash is new rolls back, imports nothing
    and returns nil: the error it wraps is the nil of the query. *)
Theorem ImportBook_row_failure_swallowed lib book move bf w n p :
  Files book = [bf] →
  Hash bf ∉ file_hash <$> files (store w) →
  plan w = Succeeds :: FailsAfter n :: p →
  ImportBook lib book move w = (None, set_tx None (set_plan p w)).
Proof.
  intros HF Hno Hp. unfold ImportBook, ImportBook_store. rewrite HF.
  destruct w as [st t dk pl]. simpl in *. subst pl.
  unfold mbind, M_bind, Begin, tx_Query, consult. simpl.
  by rewrite (select_file_ids_by_hash_absent _ _ Hno), take_nil.
Qed.

(** X25. Every library that a series of imports makes of an empty one
    is consistent, whichever of the imports fail and wherever. *)
Theorem imports_consistent lib l w :
  store w = empty_DB →
  consistent [] (store (imports lib l w)).
Proof.
  intros He.
  assert (Hc : consistent [] (store w)).
  { rewrite He. apply empty_DB_consistent. }
  clear He. revert w Hc. unfold imports.
  induction l as [|[b move] l IH]; intros w Hc; [done|].
  simpl. apply IH.
  destruct (ImportBook_store_cases (consistent []) lib b move w)
    as [->|[_ H]]; [|done..].
  intros book' Hb.
  eapply in_tx_weaken; [|by apply (ImportBook_store_in_tx b w book')].
  by intros d [? _].
Qed.

End More.

(** ** The theorems at sample inputs *)

Lemma ImportBook_one_file_only_witness :
  ImportBook (rt := Sample.runtime) Sample.lib (mkBook 0 "T" "" ["A"] []) true
    Sample.fresh =
  (Some (New "Book to import must contain only one file"), Sample.fresh).
Proof. apply ImportBook_one_file_only. simpl. lia. Defined.

Lemma ImportBook_duplicate_hash_witness :
  let w := Sample.import_all [Sample.book "T" ["A"] "a" ["x"]] Sample.fresh in
  let r :=
    ImportBook (rt := Sample.runtime) Sample.lib
      (Sample.book "U" ["B"] "a" ["y"]) false w in
  store r.2 = store w ∧ disk r.2 = disk w ∧ tx r.2 = None ∧
  ∃ f, f ∈ files (store w) ∧ file_hash f = "a" ∧
       r.1 = Some (New ("A duplicate book already exists with id "
                        +:+ FormatInt (file_id f))).
Proof.
  intros w r.
  apply (ImportBook_duplicate_hash (rt := Sample.runtime) Sample.lib
           (Sample.book "U" ["B"] "a" ["y"]) _ false w eq_refl).
  - vm_compute. left.
  - vm_compute. constructor.
Defined.

Lemma ImportBook_placement_failure_witness :
  let b := Sample.book "T" ["A"] "missing" ["x"] in
  let r := ImportBook (rt := Sample.runtime) Sample.lib b false Sample.fresh in
  books <$> tx (ImportBook_store (rt := Sample.runtime) b Sample.fresh).2
    = Some [mkBookRow 1 "" "T"] ∧
  r.1 = Some (Wrapped (Wrapped (ErrDriver "open: no such file") "Copy file")
                "Moving or copying book") ∧
  store r.2 = empty_DB ∧ tx r.2 = None.
Proof.
  intros b r. split; [by vm_compute|].
  eapply (ImportBook_placement_failure (rt := Sample.runtime)); by vm_compute.
Defined.

Lemma indexBookInSearch_document_witness :
  let w := Sample.import_all [Sample.book "T" ["A"] "a" ["x"; "y"]] Sample.fresh in
  let b := set_Id 1 (Sample.book "T" ["A"] "b" ["y"]) in
  fts_tags <$>
    (default [] (books_fts <$>
       tx (indexBookInSearch b false
             (set_tx (Some (store w)) w)).2))
  = ["x y y"].
Proof.
  intros w b.
  rewrite (proj2 (indexBookInSearch_document b
                    (mkBookFile 0 "epub" "in/b.epub" "b.epub" 5 7 "b" "regexp"
                       "src" ["y"])
                    (set_tx (Some (store w)) w) (store w) eq_refl eq_refl
                    ltac:(vm_compute; constructor)
                    ltac:(vm_compute; repeat constructor; set_solver))).
  - by vm_compute.
  - vm_compute. left.
Defined.

(** C5, at an input where the claim fails.  The entry "T" by "A" has
    its document with the tag "x".  A second file of the entry is
    indexed and the fetch of the document fails before its first row:
    indexBookInSearch returns nil.  In the import of that file the
    ninth operation on the store is this fetch: ImportBook returns nil
    and commits the file, and the document still holds "x" alone. *)
Theorem indexBookInSearch_swallows_fetch_failure :
  let w := Sample.import_all [Sample.book "T" ["A"] "a" ["x"]] Sample.fresh in
  let b := Sample.book "T" ["A"] "b" ["y"] in
  let r :=
    ImportBook (rt := Sample.runtime) Sample.lib b false
      (set_plan (replicate 8 Succeeds ++ [FailsAfter 0])%list w) in
  (indexBookInSearch (set_Id 1 b) false
     (set_plan [FailsAfter 0] (set_tx (Some (store w)) w))).1 = None ∧
  r.1 = None ∧
  file_hash <$> files (store r.2) = ["a"; "b"] ∧
  fts_tags <$> books_fts (store r.2) = ["x"].
Proof. by vm_compute. Qed.

Lemma GetUniqueName_first_free_witness :
  GetUniqueName {[ "book.epub" := Sample.data; "book (1).epub" := Sample.data ]}
    "book.epub"
  = Some "book (2).epub".
Proof.
  apply GetUniqueName_first_free; done.
Defined.

Lemma six_keys : NoDup (book_id <$> books (store Sample.six)).
Proof. apply (bool_decide_unpack _). by vm_compute. Qed.


Lemma hydration_in_link_order_witness :
  let book :=
    mkBook 1 "T" "" ["Zed"; "Amy"]
      [mkBookFile 1 "epub" "in/a.epub" "a.epub" 5 7 "a" "regexp" "src"
         ["z"; "a"]] in
  (GetBooksById (rt := Sample.runtime) [1] Sample.zed_amy).1
  = ([book], None) ∧
  linked_in_order (books_authors (store Sample.zed_amy))
    (authors (store Sample.zed_amy)) 1 ["Zed"; "Amy"] ∧
  ∀ bf, bf ∈ Files book →
        linked_in_order (files_tags (store Sample.zed_amy))
          (tags (store Sample.zed_amy)) (FileId bf) (Tags bf).
Proof.
  intros book. split; [by vm_compute|].
  exact (hydration_in_link_order (rt := Sample.runtime) [1] Sample.zed_amy book
           ltac:(vm_compute; constructor) ltac:(vm_compute; left)).
Defined.

(** The title "T" by ["A"; "B"] and by ["B"; "A"] are two entries, and
    a second file of "T" by ["A"; "B"] goes to the first of them. *)
Example author_order_is_identity :
  let w :=
    Sample.import_all
      [Sample.book "T" ["A"; "B"] "a" []; Sample.book "T" ["B"; "A"] "b" [];
       Sample.book "T" ["A"; "B"] "c" []]
      Sample.fresh in
  books (store w) = [mkBookRow 1 "" "T"; mkBookRow 2 "" "T"] ∧
  file_book_id <$> files (store w) = [1; 2; 1] ∧
  recorded_authors (store w) 1 = ["A"; "B"] ∧
  recorded_authors (store w) 2 = ["B"; "A"].
Proof. by vm_compute. Qed.

(** C2, at inputs where the claim fails.  The title "T" is imported
    with the author list ["A"; "A"], and then once more, with another
    file and the same list: the link of the book to the author "A" is
    stored once, the resolver compares ["A"; "A"] with the stored ["A"],
    finds nothing, and the second import makes a second entry for its
    file.  The same happens with the empty author list: an entry
    without authors has no row in the author query, so the resolver
    never meets it. *)
Theorem same_authors_twice_two_entries :
  let import b w := (ImportBook (rt := Sample.runtime) Sample.lib b false w).2 in
  let resolve t a w :=
    (getBookIdByTitleAndAuthors (rt := Sample.runtime) t a
       (set_tx (Some (store w)) w)).1 in
  let w1 := import (Sample.book "T" ["A"; "A"] "a" []) Sample.fresh in
  let w2 := import (Sample.book "T" ["A"; "A"] "b" []) w1 in
  let v1 := import (Sample.book "T" [] "a" []) Sample.fresh in
  let v2 := import (Sample.book "T" [] "b" []) v1 in
  (books (store w1) = [mkBookRow 1 "" "T"] ∧
   resolve "T" ["A"; "A"] w1 = (0, false, None) ∧
   books (store w2) = [mkBookRow 1 "" "T"; mkBookRow 2 "" "T"] ∧
   file_book_id <$> files (store w2) = [1; 2]) ∧
  (books (store v1) = [mkBookRow 1 "" "T"] ∧
   resolve "T" [] v1 = (0, false, None) ∧
   books (store v2) = [mkBookRow 1 "" "T"; mkBookRow 2 "" "T"] ∧
   file_book_id <$> files (store v2) = [1; 2]).
Proof. by vm_compute. Qed.

(** ** More of the library, at sample inputs *)

Lemma sample_calm w : plan w = [] → calm w.
Proof. unfold calm. intros ->. constructor. Qed.

Lemma ImportBook_all_or_nothing_witness :
  let w := set_plan [Fails] Sample.fresh in
  store (ImportBook (rt := Sample.runtime) Sample.lib
           (Sample.book "T" ["A"] "a" ["x"]) false w).2
  = store w.
Proof.
  intros w.
  exact (ImportBook_all_or_nothing (rt := Sample.runtime) Sample.lib
           (Sample.book "T" ["A"] "a" ["x"]) false w ltac:(by vm_compute)).
Defined.


Lemma getBookIdByTitleAndAuthors_found_witness :
  let d := store Sample.zed_amy in
  @None error = None ∧ ["Zed"; "Amy"] ≠ [] ∧
  recorded_authors d 1 = ["Zed"; "Amy"] ∧
  ∃ r, r ∈ books d ∧ book_id r = 1 ∧ book_title r = "T".
Proof.
  intros d.
  exact (getBookIdByTitleAndAuthors_found (rt := Sample.runtime) "T"
           ["Zed"; "Amy"] d (set_tx (Some d) Sample.zed_amy) 1 None
           (conj (sample_calm (set_tx (Some d) Sample.zed_amy)
                    ltac:(by vm_compute)) eq_refl)
           ltac:(by vm_compute)).
Defined.

Lemma getBookIdByTitleAndAuthors_finds_witness :
  let d := store Sample.zed_amy in
  ∃ id,
    (getBookIdByTitleAndAuthors (rt := Sample.runtime) "T" ["Zed"; "Amy"]
       (set_tx (Some d) Sample.zed_amy)).1
    = (id, true, None).
Proof.
  intros d.
  exact (getBookIdByTitleAndAuthors_finds (rt := Sample.runtime) "T"
           ["Zed"; "Amy"] d (set_tx (Some d) Sample.zed_amy)
           (mkBookRow 1 "" "T")
           (conj (sample_calm (set_tx (Some d) Sample.zed_amy)
                    ltac:(by vm_compute)) eq_refl)
           ltac:(done) ltac:(vm_compute; left) eq_refl ltac:(by vm_compute)).
Defined.

Lemma indexBookInSearch_missing_document_witness :
  let d := store Sample.zed_amy in
  let b := set_Id 9 (Sample.book "T" ["Zed"; "Amy"] "b" []) in
  indexBookInSearch b false (set_tx (Some d) Sample.zed_amy)
  = (Some (New ("Existing book " +:+ FormatInt (Id b) +:+ " not found in FTS")),
     tick (set_tx (Some d) Sample.zed_amy)).
Proof.
  intros d b.
  exact (indexBookInSearch_missing_document b
           (mkBookFile 0 "epub" "in/b.epub" "b.epub" 5 7 "b" "regexp" "src" [])
           (set_tx (Some d) Sample.zed_amy) d eq_refl eq_refl
           ltac:(vm_compute; constructor)
           ltac:(apply (bool_decide_unpack _); by vm_compute)).
Defined.

Lemma indexBookInSearch_refused_witness :
  let d := store Sample.zed_amy in
  let b := set_Id 1 (Sample.book "T" ["Zed"; "Amy"] "b" []) in
  let w := set_plan [Fails] (set_tx (Some d) Sample.zed_amy) in
  ∃ e, indexBookInSearch b true w = (Some e, tick w).
Proof.
  intros d b w.
  exact (indexBookInSearch_refused b
           (mkBookFile 0 "epub" "in/b.epub" "b.epub" 5 7 "b" "regexp" "src" [])
           true w d [] eq_refl eq_refl eq_refl).
Defined.

Lemma GetBooksById_at_most_ids_witness :
  let ids : list Z := [1; 2; 2] in
  (length (GetBooksById (rt := Sample.runtime) ids Sample.six).1.1
   ≤ length ids)%nat.
Proof.
  intros ids.
  exact (GetBooksById_at_most_ids (rt := Sample.runtime) ids Sample.six
           six_keys).
Defined.

Lemma GetBooksById_unknown_ids_witness :
  (GetBooksById (rt := Sample.runtime) [7; 8] Sample.six).1 = ([], None).
Proof.
  apply (GetBooksById_unknown_ids (rt := Sample.runtime) [7; 8] Sample.six).
  - apply sample_calm. by vm_compute.
  - apply Forall_forall. apply (bool_decide_unpack _). by vm_compute.
Defined.

Lemma GetBooksById_row_failure_swallowed_witness :
  let w := set_plan [Succeeds; FailsAfter 1] Sample.six in
  GetBooksById (rt := Sample.runtime) [1; 2] w
  = (([], None), set_tx None (set_plan [] w)).
Proof.
  intros w.
  exact (GetBooksById_row_failure_swallowed (rt := Sample.runtime) [1; 2] w 1
           [] ltac:(done) eq_refl).
Defined.

Lemma GetBooksById_refused_query_witness :
  let w := set_plan [Succeeds; Fails] Sample.six in
  GetBooksById (rt := Sample.runtime) [1; 2] w
  = (([], Some (Wrapped (ErrDriver "query")
                  "fetching books from database by ID")),
     set_tx (Some (store w)) (set_plan [] w)).
Proof.
  intros w.
  exact (GetBooksById_refused_query (rt := Sample.runtime) [1; 2] w []
           ltac:(done) eq_refl).
Defined.

Lemma SearchPaged_failed_query_witness :
  let w := set_plan [FailsAfter 2] Sample.six in
  SearchPaged (rt := Sample.runtime) "T" 0 2 10 w
  = (([], 0,
      Some (Wrapped (ErrDriver "rows") "Retrieving search results from db")),
     set_plan [] w).
Proof.
  intros w.
  exact (SearchPaged_failed_query (rt := Sample.runtime) "T" 0 2 10 w
           (FailsAfter 2) [] eq_refl ltac:(done)).
Defined.

Lemma GetFilesById_rows_witness :
  (GetFilesById [1] Sample.zed_amy).1.2 = None ∧
  tags_in_order (store Sample.zed_amy) (GetFilesById [1] Sample.zed_amy).1.1.
Proof.
  pose proof (GetFilesById_rows [1] Sample.zed_amy
                (sample_calm Sample.zed_amy ltac:(by vm_compute)))
    as (H1 & _ & H2).
  exact (conj H1 H2).
Defined.

Lemma GetFilesById_changes_nothing_witness :
  let w := set_plan [Succeeds; Succeeds; FailsAfter 0] Sample.six in
  outside (GetFilesById [1; 2] w).2 = outside w ∧
  tx (GetFilesById [1; 2] w).2 = None.
Proof.
  intros w. exact (GetFilesById_changes_nothing [1; 2] w eq_refl).
Defined.

Lemma joinInt64s_characters_witness :
  ("2" : ascii) ∈ list_ascii_of_string "-0123456789" ∨
  ("2" : ascii) ∈ list_ascii_of_string ", ".
Proof.
  apply (joinInt64s_characters [1; -20; 3] ", ").
  apply (bool_decide_unpack _). by vm_compute.
Defined.

Lemma joinInt64s_comma_inj_witness : [1; -20; 3] = [1; -20; 3].
Proof. exact (joinInt64s_comma_inj [1; -20; 3] [1; -20; 3] eq_refl). Defined.

Lemma copyFile_copies_witness :
  let r := copyFile "in/a.epub" "books/a.epub" Sample.fresh in
  r.1 = None ∧
  disk r.2 !! "books/a.epub" = Some Sample.data ∧
  disk r.2 !! "in/a.epub" = Some Sample.data ∧
  ∀ name, name ≠ "books/a.epub" → disk r.2 !! name = disk Sample.fresh !! name.
Proof.
  intros r.
  exact (copyFile_copies "in/a.epub" "books/a.epub" Sample.fresh Sample.data
           (sample_calm Sample.fresh eq_refl) ltac:(done) ltac:(by vm_compute)).
Defined.

Lemma copyFile_missing_source_witness :
  is_Some (copyFile "in/none.epub" "books/a.epub" Sample.fresh).1 ∧
  disk (copyFile "in/none.epub" "books/a.epub" Sample.fresh).2
  = disk Sample.fresh.
Proof.
  exact (copyFile_missing_source "in/none.epub" "books/a.epub" Sample.fresh
           ltac:(by vm_compute)).
Defined.

Lemma moveFile_moves_witness :
  let w := set_plan [Fails] Sample.fresh in
  (moveFile "in/a.epub" "books/a.epub" w).1 = None ∧
  disk (moveFile "in/a.epub" "books/a.epub" w).2
  = <["books/a.epub" := Sample.data]> (delete "in/a.epub" (disk w)).
Proof.
  intros w.
  exact (moveFile_moves "in/a.epub" "books/a.epub" w Sample.data []
           ltac:(done) ltac:(by vm_compute) ltac:(constructor)
           (or_intror eq_refl)).
Defined.

Lemma moveFile_keeps_source_on_failed_delete_witness :
  let w := set_plan (Fails :: replicate 7 Succeeds ++ [Fails]) Sample.fresh in
  (moveFile "in/a.epub" "books/a.epub" w).1 = None ∧
  disk (moveFile "in/a.epub" "books/a.epub" w).2 !! "in/a.epub"
  = Some Sample.data ∧
  disk (moveFile "in/a.epub" "books/a.epub" w).2 !! "books/a.epub"
  = Some Sample.data.
Proof.
  intros w.
  exact (moveFile_keeps_source_on_failed_delete "in/a.epub" "books/a.epub" w
           Sample.data ltac:(done) ltac:(by vm_compute) eq_refl).
Defined.

Lemma ImportBook_keeps_consistent_witness :
  consistent []
    (store (ImportBook (rt := Sample.runtime) Sample.lib
              (Sample.book "T" ["A"; "B"] "a" ["x"]) false Sample.fresh).2).
Proof.
  exact (ImportBook_keeps_consistent (rt := Sample.runtime) Sample.lib
           (Sample.book "T" ["A"; "B"] "a" ["x"]) false Sample.fresh
           empty_DB_consistent).
Defined.

Lemma ImportBook_records_hash_witness :
  let b := Sample.book "T" ["A"; "B"] "a" ["x"] in
  let r := ImportBook (rt := Sample.runtime) Sample.lib b false Sample.fresh in
  store r.2 = store Sample.fresh ∨
  r.1 = None ∧ "a" ∈ file_hash <$> files (store r.2).
Proof.
  intros b r.
  exact (ImportBook_records_hash (rt := Sample.runtime) Sample.lib b false
           Sample.fresh
           (mkBookFile 0 "epub" "in/a.epub" "a.epub" 5 7 "a" "regexp" "src"
              ["x"])
           empty_DB_consistent ltac:(vm_compute; left)).
Defined.

Lemma imports_consistent_witness :
  let b := Sample.book "T" ["A"; "B"] "a" ["x"] in
  consistent []
    (store (imports (H := Sample.runtime) Sample.lib [(b, false); (b, true)]
              (set_plan (replicate 12 Succeeds ++ [Fails]) Sample.fresh))).
Proof.
  intros b.
  exact (imports_consistent (rt := Sample.runtime) Sample.lib
           [(b, false); (b, true)]
           (set_plan (replicate 12 Succeeds ++ [Fails]) Sample.fresh) eq_refl).
Defined.

Lemma ImportBook_row_failure_swallowed_witness :
  let b := Sample.book "T" ["A"] "a" ["x"] in
  let w := set_plan [Succeeds; FailsAfter 0] Sample.fresh in
  ImportBook (rt := Sample.runtime) Sample.lib b true w
  = (None, set_tx None (set_plan [] w)).
Proof.
  intros b w.
  exact (ImportBook_row_failure_swallowed (rt := Sample.runtime) Sample.lib b
           true
           (mkBookFile 0 "epub" "in/a.epub" "a.epub" 5 7 "a" "regexp" "src"
              ["x"])
           w 0 [] eq_refl ltac:(by intros ?%elem_of_nil) eq_refl).
Defined.

Lemma insertAuthor_links_witness :
  let b := set_Id 1 (Sample.book "T" ["Zed"; "Amy"] "a" []) in
  let w := set_tx (Some (store Sample.zed_amy)) Sample.zed_amy in
  ∃ d a, tx (insertAuthor "Bob" b w).2 = Some d ∧
         a ∈ authors d ∧ name a = "Bob" ∧
         Exists (λ l, owner_id l = Id b ∧ member_id l = name_id a)
           (books_authors d).
Proof.
  intros b w. exact (insertAuthor_links "Bob" b w ltac:(by vm_compute)).
Defined.

Lemma insertTag_links_witness :
  let bf :=
    mkBookFile 1 "epub" "in/a.epub" "a.epub" 5 7 "a" "regexp" "src" ["z"] in
  let w := set_tx (Some (store Sample.zed_amy)) Sample.zed_amy in
  ∃ d a, tx (insertTag "z" bf w).2 = Some d ∧
         a ∈ tags d ∧ name a = "z" ∧
         Exists (λ l, owner_id l = FileId bf ∧ member_id l = name_id a)
           (files_tags d).
Proof.
  intros bf w. exact (insertTag_links "z" bf w ltac:(by vm_compute)).
Defined.

Lemma moveOrCopyFile_places_witness :
  let b := Sample.book "T" ["A"] "a" ["x"] in
  let r := moveOrCopyFile (rt := Sample.runtime) Sample.lib b true Sample.fresh in
  r.1 = None ∧
  disk r.2
  = <["books/a.epub" := Sample.data]> (delete "in/a.epub" (disk Sample.fresh)).
Proof.
  intros b r.
  exact (moveOrCopyFile_places (rt := Sample.runtime) Sample.lib b
           (mkBookFile 0 "epub" "in/a.epub" "a.epub" 5 7 "a" "regexp" "src"
              ["x"])
           true Sample.fresh Sample.data (sample_calm Sample.fresh eq_refl)
           eq_refl ltac:(done) ltac:(by vm_compute)).
Defined.
